(** * Session lifecycle and matchmaking coordinator of [server.js]

    A shallow embedding of the Socket.IO game server: the [GameSession] and
    [SessionManager] classes, the three per-connection handlers ([find],
    [getScore], [disconnect]) and the periodic [cleanup].  The file
    [server.js] holds two listings; the class-based one (with
    [SessionManager]) is embedded at top level, the handlers of the earlier
    listing (sessions kept in an object keyed by a counter) in the module
    [FirstListing]. *)

From stdpp Require Import base list strings numbers gmap sorting.


(** ** JavaScript values and array primitives *)

(** The payload fields the handlers read without trusting their type. *)
Inductive JsValue :=
  | JsUndefined
  | JsNumber (z : Z)
  | JsString (s : string).

#[global] Instance JsValue_eq_dec : EqDecision JsValue.
Proof. solve_decision. Defined.

(** [!v] is false exactly for truthy values. *)
Definition truthy (v : JsValue) : bool :=
  match v with
  | JsUndefined => false
  | JsNumber z => negb (z =? 0)%Z
  | JsString s => negb (String.eqb s "")
  end.

(** [typeof v === 'string'] *)
Definition typeof_string (v : JsValue) : bool :=
  match v with
  | JsString _ => true
  | _ => false
  end.

(** Code that may [throw new Error(message)]. *)
Inductive Result (A : Type) :=
  | Ok (a : A)
  | Throw (message : string).
Arguments Ok {A} a.
Arguments Throw {A} message.

Section arrays.
Context {A : Type}.

(** [arr.findIndex(p)]: first position satisfying [p], [-1] when none. *)
Fixpoint findIndex (p : A → bool) (arr : list A) : Z :=
  match arr with
  | [] => (-1)%Z
  | x :: rest =>
      if p x then 0%Z
      else let i := findIndex p rest in
           if (i <? 0)%Z then (-1)%Z else (i + 1)%Z
  end.

(** [arr[i]] for an integer [i]: [undefined] out of range. *)
Definition at_index (arr : list A) (i : Z) : option A :=
  if (i <? 0)%Z then None else arr !! Z.to_nat i.

(** [arr.splice(start, 1)]: a negative [start] counts from the end, and
    nothing is removed when the start position is past the end. *)
Definition splice1 (start : Z) (arr : list A) : list A :=
  let len := Z.of_nat (length arr) in
  let actual := if (start <? 0)%Z then Z.max (len + start) 0
                else Z.min start len in
  delete (Z.to_nat actual) arr.
End arrays.

(** ** The class-based listing *)

Definition MAX_SESSIONS : nat := 100.
Definition PLAYERS_PER_SESSION : nat := 4.
Definition SESSION_TIMEOUT : Z := (5 * 60 * 1000)%Z.

(** [{ name: data.name, socketId: socket.id }] *)
Record Player := mkPlayer {
  name : JsValue;
  socketId : string
}.

(** An element of [playersScore].  [getScore] pushes the payload object
    itself; only these two fields of it are ever read back. *)
Record Score := mkScore {
  score_name : JsValue;
  score : JsValue
}.

(** A [GameSession] object.  [ref] is the identity of the object (its
    allocation number): it is what [indexOf] compares, and a mutation of the
    object is seen through every alias of it. *)
Record GameSession := mkSession {
  ref : nat;
  players : list Player;
  playersScore : list Score;
  disconnectedPlayersCount : nat;
  createdAt : Z
}.

(** The [sessionManager] singleton, with the number of [GameSession]
    objects allocated so far (the identity of the next one). *)
Record SessionManager := mkManager {
  sessions : list GameSession;
  allocated : nat
}.

(** Assignments to the fields of a session object; its identity stays. *)
Definition with_players (this : GameSession) (l : list Player) : GameSession :=
  {| ref := ref this;
     players := l;
     playersScore := playersScore this;
     disconnectedPlayersCount := disconnectedPlayersCount this;
     createdAt := createdAt this |}.

Definition with_playersScore (this : GameSession) (l : list Score)
  : GameSession :=
  {| ref := ref this;
     players := players this;
     playersScore := l;
     disconnectedPlayersCount := disconnectedPlayersCount this;
     createdAt := createdAt this |}.

Definition with_disconnectedPlayersCount (this : GameSession) (n : nat)
  : GameSession :=
  {| ref := ref this;
     players := players this;
     playersScore := playersScore this;
     disconnectedPlayersCount := n;
     createdAt := createdAt this |}.

Definition same_object (a b : GameSession) : bool := ref a =? ref b.

(** [arr.indexOf(session)]: strict equality on objects is identity. *)
Definition indexOf (session : GameSession) (arr : list GameSession) : Z :=
  findIndex (same_object session) arr.

(** Writing the new contents [session] of a mutated object back: every
    alias of it in the array sees them. *)
Definition mutate (session : GameSession) (arr : list GameSession)
  : list GameSession :=
  (λ x, if same_object session x then session else x) <$> arr.

Definition set_sessions (m : SessionManager) (arr : list GameSession)
  : SessionManager :=
  {| sessions := arr; allocated := allocated m |}.

(** [GameSession.addPlayer] *)
Definition addPlayer (player : Player) (this : GameSession)
  : Result GameSession :=
  if PLAYERS_PER_SESSION <=? length (players this) then
    Throw "Session is full"
  else
    Ok (with_players this (players this ++ [player])).

(** [GameSession.isExpired], with [now] the value of [Date.now()]. *)
Definition isExpired (now : Z) (this : GameSession) : bool :=
  (SESSION_TIMEOUT <? now - createdAt this)%Z.

(** [SessionManager.cleanup] *)
Definition cleanup (now : Z) (m : SessionManager) : SessionManager :=
  set_sessions m
    (filter (λ session, negb (isExpired now session)) (sessions m)).

(** [new GameSession()] *)
Definition new_GameSession (now : Z) (m : SessionManager) : GameSession :=
  {| ref := allocated m;
     players := [];
     playersScore := [];
     disconnectedPlayersCount := 0;
     createdAt := now |}.

(** [SessionManager.createSession] *)
Definition createSession (now : Z) (m : SessionManager)
  : Result (GameSession * SessionManager) :=
  if MAX_SESSIONS <=? length (sessions m) then
    Throw "Maximum sessions limit reached"
  else
    let session := new_GameSession now m in
    Ok (session, {| sessions := sessions m ++ [session];
                    allocated := S (allocated m) |}).

(** What the server sends. *)
Inductive Output :=
  | IoEmitFind (sessionId : Z)
      (* io.emit("find", { connected: true, sessionId }) *)
  | IoEmitGetScore (sessionId : Z) (scores : list Score)
      (* io.emit("getScore", { sessionId, scores }) *)
  | SocketEmitError (to : string) (message : string)
      (* socket.emit('error', { message }) *)
  | CallbackSuccess (to : string)
      (* callback({ status: 'success' }) *)
  | CallbackError (to : string) (message : string).
      (* callback({ status: 'error', message }) *)

#[global] Instance Score_eq_dec : EqDecision Score.
Proof. solve_decision. Defined.
#[global] Instance Output_eq_dec : EqDecision Output.
Proof. solve_decision. Defined.

(** [sessions.find(s => s.players.length < PLAYERS_PER_SESSION)] *)
Definition has_room (s : GameSession) : bool :=
  length (players s) <? PLAYERS_PER_SESSION.

Definition findOpenSession (m : SessionManager) : option GameSession :=
  List.find has_room (sessions m).

(** [socket.on("find", ...)]: the [try] block, each [throw] of which ends
    in the [catch] that reports the message to the caller alone, with the
    manager as it is at that point. *)
Definition onFind (sock : string) (data_name : JsValue) (now : Z)
    (m : SessionManager) : SessionManager * list Output :=
  if negb (truthy data_name) || negb (typeof_string data_name) then
    (m, [SocketEmitError sock "Invalid player name"])
  else
    match match findOpenSession m with
          | Some session => Ok (session, m)
          | None => createSession now m
          end with
    | Throw msg => (m, [SocketEmitError sock msg])
    | Ok (session, m1) =>
        match addPlayer {| name := data_name; socketId := sock |} session with
        | Throw msg => (m1, [SocketEmitError sock msg])
        | Ok session' =>
            let m2 := set_sessions m1 (mutate session' (sessions m1)) in
            (m2,
             if length (players session') =? PLAYERS_PER_SESSION
             then [IoEmitFind (indexOf session' (sessions m2))]
             else [])
        end
    end.

(** The [try] block of the [getScore] handler; its only [throw] comes
    before anything is written. *)
Definition getScore_body (sessionId : Z) (data : Score)
    (m : SessionManager) : Result (SessionManager * list Output) :=
  match at_index (sessions m) sessionId with
  | None => Throw "Invalid session"
  | Some session =>
      let session' :=
        with_playersScore session (playersScore session ++ [data]) in
      let m1 := set_sessions m (mutate session' (sessions m)) in
      if length (playersScore session') =? PLAYERS_PER_SESSION then
        let sessionIndex := indexOf session' (sessions m1) in
        Ok (if (sessionIndex =? -1)%Z then m1
            else set_sessions m1 (splice1 sessionIndex (sessions m1)),
            [IoEmitGetScore sessionId
               ((λ player, {| score_name := score_name player;
                              score := score player |})
                  <$> playersScore session')])
      else Ok (m1, [])
  end.

(** [socket.on("getScore", ...)]; [cb] tells whether the client passed an
    acknowledgement callback. *)
Definition onGetScore (sock : string) (sessionId : Z) (data : Score)
    (cb : bool) (m : SessionManager) : SessionManager * list Output :=
  match getScore_body sessionId data m with
  | Ok (m', out) => (m', out ++ if cb then [CallbackSuccess sock] else [])
  | Throw msg => (m, if cb then [CallbackError sock msg] else [])
  end.

(** The body run for the first session holding the disconnected socket;
    the loop [break]s after it. *)
Definition disconnect_found (session : GameSession) (playerIndex : Z)
    (m : SessionManager) : SessionManager :=
  if length (players session) <? PLAYERS_PER_SESSION then
    let session' :=
      with_players session (splice1 playerIndex (players session)) in
    set_sessions m (mutate session' (sessions m))
  else
    match at_index (players session) playerIndex with
    | None => m (* reading [.name] of [undefined] throws; caught and logged *)
    | Some player =>
        let session' :=
          with_disconnectedPlayersCount
            (with_playersScore session
               (playersScore session ++
                  [{| score_name := name player; score := JsNumber 0 |}]))
            (S (disconnectedPlayersCount session)) in
        let m1 := set_sessions m (mutate session' (sessions m)) in
        if disconnectedPlayersCount session' =? PLAYERS_PER_SESSION then
          set_sessions m1 (splice1 (indexOf session' (sessions m1)) (sessions m1))
        else m1
    end.

(** [p => p.socketId === socket.id] *)
Definition is_socket (sock : string) (p : Player) : bool :=
  String.eqb (socketId p) sock.

(** [for (let session of sessionManager.sessions) { ... break; }] *)
Fixpoint disconnect_loop (sock : string) (todo : list GameSession)
    (m : SessionManager) : SessionManager :=
  match todo with
  | [] => m
  | session :: rest =>
      let playerIndex := findIndex (is_socket sock) (players session) in
      if negb (playerIndex =? -1)%Z then disconnect_found session playerIndex m
      else disconnect_loop sock rest m
  end.

(** [socket.on('disconnect', ...)]: it sends nothing. *)
Definition onDisconnect (sock : string) (m : SessionManager)
  : SessionManager * list Output :=
  (disconnect_loop sock (sessions m) m, []).

(** ** Runs of the server *)

(** The events the server handles.  Payloads are taken to be objects; of a
    [find] payload only [name] is read, of a [getScore] payload [sessionId]
    (taken to be an integer), [name] and [score].  [now] is the value of
    [Date.now()] when the handler runs. *)
Inductive Event :=
  | Find (sock : string) (data_name : JsValue) (now : Z)
  | GetScore (sock : string) (sessionId : Z) (data : Score) (cb : bool)
  | Disconnect (sock : string)
  | Tick (now : Z). (* the [setInterval] timer firing [cleanup] *)

Definition step (m : SessionManager) (ev : Event)
  : SessionManager * list Output :=
  match ev with
  | Find sock data_name now => onFind sock data_name now m
  | GetScore sock sessionId data cb => onGetScore sock sessionId data cb m
  | Disconnect sock => onDisconnect sock m
  | Tick now => (cleanup now m, [])
  end.

(** Handlers run to completion one after the other. *)
Fixpoint run (m : SessionManager) (trace : list Event)
  : SessionManager * list Output :=
  match trace with
  | [] => (m, [])
  | ev :: rest =>
      let '(m1, out1) := step m ev in
      let '(m2, out2) := run m1 rest in
      (m2, out1 ++ out2)
  end.

Definition initial : SessionManager := {| sessions := []; allocated := 0 |}.

Definition state_after (trace : list Event) : SessionManager :=
  (run initial trace).1.
Definition sent_during (trace : list Event) : list Output :=
  (run initial trace).2.

(** ** The earlier listing: sessions in an object keyed by a counter

    Its [find] and [getScore] handlers.  Its [disconnect] handler walks
    [sessions] with [for ... of], which a plain object does not support, and
    is left out. *)

Module FirstListing.

(** [{ id, players, playersScore, disconnectedPlayersCount }] *)
Record Session := mkSession {
  id : nat;
  players : list Player;
  playersScore : list Score;
  disconnectedPlayersCount : nat
}.

(** The two module-level variables. *)
Record Server := mkServer {
  sessionIdCounter : nat;
  sessions : gmap nat Session
}.

Definition key_le (a b : nat * Session) : Prop := a.1 ≤ b.1.

#[global] Instance key_le_dec a b : Decision (key_le a b).
Proof. unfold key_le. apply _. Defined.

(** The properties of the object in enumeration order: integer keys come
    in ascending order. *)
Definition entries (obj : gmap nat Session) : list (nat * Session) :=
  merge_sort key_le (map_to_list obj).

(** [sessions[e.sessionId]] *)
Definition property (obj : gmap nat Session) (key : Z) : option Session :=
  if (key <? 0)%Z then None else obj !! Z.to_nat key.

(** [socket.on("find", ...)]: the session is looked for among
    [Object.values(sessions)], made and stored under a new id when none has
    room, and the object found or made is changed in place. *)
Definition onFind (sock : string) (e_name : JsValue) (st : Server)
  : Server * list Output :=
  let '(key, session, st1) :=
    match List.find (λ kv, length (players kv.2) <? 4) (entries (sessions st)) with
    | Some (key, session) => (key, session, st)
    | None =>
        let session := {| id := sessionIdCounter st;
                          players := [];
                          playersScore := [];
                          disconnectedPlayersCount := 0 |} in
        (id session, session,
         {| sessionIdCounter := S (sessionIdCounter st);
            sessions := <[id session := session]> (sessions st) |})
    end in
  let session' := {| id := id session;
                     players := players session ++
                                  [{| name := e_name; socketId := sock |}];
                     playersScore := playersScore session;
                     disconnectedPlayersCount :=
                       disconnectedPlayersCount session |} in
  ({| sessionIdCounter := sessionIdCounter st1;
      sessions := <[key := session']> (sessions st1) |},
   if length (players session') =? 4
   then [IoEmitFind (Z.of_nat (id session'))]
   else []).

(** [socket.on("getScore", ...)]: after the fourth score the session is
    emptied and stays in [sessions]. *)
Definition onGetScore (sessionId : Z) (e : Score) (st : Server)
  : Server * list Output :=
  match property (sessions st) sessionId with
  | None => (st, [])
  | Some session =>
      let playersScore' := playersScore session ++ [e] in
      if length playersScore' =? 4 then
        ({| sessionIdCounter := sessionIdCounter st;
            sessions :=
              <[Z.to_nat sessionId :=
                  {| id := id session;
                     players := [];
                     playersScore := [];
                     disconnectedPlayersCount :=
                       disconnectedPlayersCount session |}]> (sessions st) |},
         [IoEmitGetScore sessionId
            ((λ player, {| score_name := score_name player;
                           score := score player |}) <$> playersScore')])
      else
        ({| sessionIdCounter := sessionIdCounter st;
            sessions :=
              <[Z.to_nat sessionId :=
                  {| id := id session;
                     players := players session;
                     playersScore := playersScore';
                     disconnectedPlayersCount :=
                       disconnectedPlayersCount session |}]> (sessions st) |},
         [])
  end.

Inductive Event :=
  | Find (sock : string) (e_name : JsValue)
  | GetScore (sessionId : Z) (e : Score).

Definition step (st : Server) (ev : Event) : Server * list Output :=
  match ev with
  | Find sock e_name => onFind sock e_name st
  | GetScore sessionId e => onGetScore sessionId e st
  end.

Fixpoint run (st : Server) (trace : list Event) : Server * list Output :=
  match trace with
  | [] => (st, [])
  | ev :: rest =>
      let '(st1, out1) := step st ev in
      let '(st2, out2) := run st1 rest in
      (st2, out1 ++ out2)
  end.

Definition initial : Server := {| sessionIdCounter := 0; sessions := ∅ |}.

End FirstListing.


(** ** Vocabulary of the statements *)

(** The array holds each session object once, and only objects made so far:
    what every run of the server keeps. *)
Record well_formed (m : SessionManager) : Prop := {
  wf_distinct : NoDup (ref <$> sessions m);
  wf_allocated : Forall (λ s, ref s < allocated m) (sessions m)
}.

(** The name passes the check of the [find] handler. *)
Definition valid_name (v : JsValue) : bool := truthy v && typeof_string v.

(** The session holds a player with this socket: the [disconnect] loop stops
    at the first such session. *)
Definition holds (sock : string) (s : GameSession) : bool :=
  negb (findIndex (is_socket sock) (players s) =? -1)%Z.

Definition owner (sock : string) (m : SessionManager) : option GameSession :=
  List.find (holds sock) (sessions m).

(** Session [i] is the first one holding [sock], as its player number [j]. *)
Definition located (m : SessionManager) (sock : string) (i : nat)
    (s : GameSession) (j : nat) (p : Player) : Prop :=
  sessions m !! i = Some s ∧
  (∀ k t, k < i → sessions m !! k = Some t → holds sock t = false) ∧
  players s !! j = Some p ∧ socketId p = sock ∧
  (∀ k q, k < j → players s !! k = Some q → socketId q ≠ sock).

(** The score recorded for a player who left a full session. *)
Definition zero_score (p : Player) : Score :=
  {| score_name := name p; score := JsNumber 0 |}.

Definition zeroed (p : Player) (s : GameSession) : GameSession :=
  with_disconnectedPlayersCount
    (with_playersScore s (playersScore s ++ [zero_score p]))
    (S (disconnectedPlayersCount s)).

Definition ack_success (cb : bool) (sock : string) : list Output :=
  if cb then [CallbackSuccess sock] else [].

(** What one handler does to a well-formed manager, case by case. *)
Inductive step_spec (m : SessionManager)
  : Event → SessionManager → list Output → Prop :=
  | find_invalid sock nm now :
      valid_name nm = false →
      step_spec m (Find sock nm now) m
        [SocketEmitError sock "Invalid player name"]
  | find_capped sock nm now :
      valid_name nm = true →
      findOpenSession m = None →
      MAX_SESSIONS ≤ length (sessions m) →
      step_spec m (Find sock nm now) m
        [SocketEmitError sock "Maximum sessions limit reached"]
  | find_created sock nm now :
      valid_name nm = true →
      findOpenSession m = None →
      length (sessions m) < MAX_SESSIONS →
      step_spec m (Find sock nm now)
        {| sessions := sessions m ++
             [with_players (new_GameSession now m) [mkPlayer nm sock]];
           allocated := S (allocated m) |}
        []
  | find_joined sock nm now i s :
      valid_name nm = true →
      sessions m !! i = Some s →
      length (players s) < PLAYERS_PER_SESSION →
      (∀ j t, j < i → sessions m !! j = Some t → has_room t = false) →
      step_spec m (Find sock nm now)
        (set_sessions m
           (<[i := with_players s (players s ++ [mkPlayer nm sock])]>
              (sessions m)))
        (if S (length (players s)) =? PLAYERS_PER_SESSION
         then [IoEmitFind (Z.of_nat i)] else [])
  | score_unknown sock sessionId d cb :
      at_index (sessions m) sessionId = None →
      step_spec m (GetScore sock sessionId d cb) m
        (if cb then [CallbackError sock "Invalid session"] else [])
  | score_pushed sock i s d cb :
      sessions m !! i = Some s →
      S (length (playersScore s)) ≠ PLAYERS_PER_SESSION →
      step_spec m (GetScore sock (Z.of_nat i) d cb)
        (set_sessions m
           (<[i := with_playersScore s (playersScore s ++ [d])]> (sessions m)))
        (ack_success cb sock)
  | score_completed sock i s d cb :
      sessions m !! i = Some s →
      S (length (playersScore s)) = PLAYERS_PER_SESSION →
      step_spec m (GetScore sock (Z.of_nat i) d cb)
        (set_sessions m (delete i (sessions m)))
        (IoEmitGetScore (Z.of_nat i) (playersScore s ++ [d])
           :: ack_success cb sock)
  | disconnect_absent sock :
      Forall (λ s, holds sock s = false) (sessions m) →
      step_spec m (Disconnect sock) m []
  | disconnect_filling sock i s j p :
      located m sock i s j p →
      length (players s) < PLAYERS_PER_SESSION →
      step_spec m (Disconnect sock)
        (set_sessions m
           (<[i := with_players s (delete j (players s))]> (sessions m)))
        []
  | disconnect_zeroed sock i s j p :
      located m sock i s j p →
      PLAYERS_PER_SESSION ≤ length (players s) →
      S (disconnectedPlayersCount s) ≠ PLAYERS_PER_SESSION →
      step_spec m (Disconnect sock)
        (set_sessions m (<[i := zeroed p s]> (sessions m)))
        []
  | disconnect_last sock i s j p :
      located m sock i s j p →
      PLAYERS_PER_SESSION ≤ length (players s) →
      S (disconnectedPlayersCount s) = PLAYERS_PER_SESSION →
      step_spec m (Disconnect sock)
        (set_sessions m (delete i (sessions m)))
        []
  | tick now :
      step_spec m (Tick now) (cleanup now m) [].

(** No session holds more players than a session may. *)
Definition within_capacity (m : SessionManager) : Prop :=
  Forall (λ s, length (players s) ≤ PLAYERS_PER_SESSION) (sessions m).





(** The socket ids of the players of a session, and of all the players of
    all the sessions, in order. *)
Definition sockets (s : GameSession) : list string := socketId <$> players s.

Definition connections (m : SessionManager) : list string :=
  sessions m ≫= sockets.


(** The sessions that the [find] broadcasts of [out] announce as full: the
    session object that the broadcast [sessionId] denotes in the array [m']
    left by the handler. *)
Definition announced (m' : SessionManager) (out : list Output)
  : list (option nat) :=
  omap (λ o, match o with
             | IoEmitFind sessionId =>
                 Some (ref <$> at_index (sessions m') sessionId)
             | _ => None
             end) out.

(** All of them over a run started from [m], in order. *)
Fixpoint full_broadcasts (m : SessionManager) (trace : list Event)
  : list (option nat) :=
  match trace with
  | [] => []
  | ev :: rest =>
      announced (step m ev).1 (step m ev).2 ++
        full_broadcasts (step m ev).1 rest
  end.

Definition is_find_broadcast (o : Output) : bool :=
  match o with
  | IoEmitFind _ => true
  | _ => false
  end.

(** What the [find] broadcasts made so far, [B], have to do with the
    sessions in the store: each names a session object, none is named
    twice, and a session in the store is named exactly when it is full. *)
Record broadcasts_match (m : SessionManager) (B : list (option nat)) : Prop := {
  bm_distinct : NoDup B;
  bm_denote : None ∉ B;
  bm_allocated : ∀ r, Some r ∈ B → r < allocated m;
  bm_full : ∀ s, s ∈ sessions m →
            (Some (ref s) ∈ B ↔ length (players s) = PLAYERS_PER_SESSION)
}.

(** ** Runs used as examples *)

(** Two players of a session still filling. *)
Definition stranger_trace : list Event :=
  [Find "a" (JsString "A") 0; Find "b" (JsString "B") 0].

(** Four players fill the first session at time 0. *)
Definition full_trace : list Event :=
  [Find "a" (JsString "A") 0; Find "b" (JsString "B") 0;
   Find "c" (JsString "C") 0; Find "d" (JsString "D") 0].





(** A player joins and leaves before anyone else arrives. *)
Definition lone_trace : list Event := [Find "a" (JsString "A") 0].

(** A session is created and expires before anyone else arrives. *)
Definition expiring_trace : list Event :=
  [Find "a" (JsString "A") 0; Tick 300001].

(** In the earlier listing: four players fill session 0, submit their four
    scores, and four more players arrive. *)
Definition replay_trace : list FirstListing.Event :=
  [FirstListing.Find "a" (JsString "A"); FirstListing.Find "b" (JsString "B");
   FirstListing.Find "c" (JsString "C"); FirstListing.Find "d" (JsString "D");
   FirstListing.GetScore 0 {| score_name := JsString "A"; score := JsNumber 1 |};
   FirstListing.GetScore 0 {| score_name := JsString "B"; score := JsNumber 2 |};
   FirstListing.GetScore 0 {| score_name := JsString "C"; score := JsNumber 3 |};
   FirstListing.GetScore 0 {| score_name := JsString "D"; score := JsNumber 4 |};
   FirstListing.Find "e" (JsString "E"); FirstListing.Find "f" (JsString "F");
   FirstListing.Find "g" (JsString "G"); FirstListing.Find "h" (JsString "H")].

(** Eight players fill two sessions, announced under the ids 0 and 1. *)
Definition two_full_trace : list Event :=
  full_trace ++
  [Find "e" (JsString "E") 0; Find "f" (JsString "F") 0;
   Find "g" (JsString "G") 0; Find "h" (JsString "H") 0].

(** The four players of the first session submit under its id, 0. *)
Definition first_session_scores : list Event :=
  [GetScore "a" 0 {| score_name := JsString "A"; score := JsNumber 10 |} true;
   GetScore "b" 0 {| score_name := JsString "B"; score := JsNumber 20 |} true;
   GetScore "c" 0 {| score_name := JsString "C"; score := JsNumber 30 |} true;
   GetScore "d" 0 {| score_name := JsString "D"; score := JsNumber 40 |} true].

(** Three of the four players of a full session have submitted. *)
Definition three_scores_trace : list Event :=
  full_trace ++
  [GetScore "a" 0 {| score_name := JsString "A"; score := JsNumber 10 |} true;
   GetScore "b" 0 {| score_name := JsString "B"; score := JsNumber 20 |} true;
   GetScore "c" 0 {| score_name := JsString "C"; score := JsNumber 30 |} true].



(** A connection is listed in a full session and, having asked again, in
    the next one. *)
Definition relisted_trace : list Event :=
  [Find "b" (JsString "B") 0; Find "c" (JsString "C") 0;
   Find "d" (JsString "D") 0; Find "a" (JsString "A") 0;
   Find "a" (JsString "A") 1].

(** ** Vocabulary of the further statements *)

(** The connection a message sent to one client is addressed to. *)
Definition reply_to (o : Output) : option string :=
  match o with
  | SocketEmitError to _ | CallbackSuccess to | CallbackError to _ => Some to
  | IoEmitFind _ | IoEmitGetScore _ _ => None
  end.

(** The connection an event comes from; the timer comes from none. *)
Definition event_socket (ev : Event) : option string :=
  match ev with
  | Find sock _ _ | GetScore sock _ _ _ | Disconnect sock => Some sock
  | Tick _ => None
  end.

(** No more sessions than the manager allows. *)
Definition within_session_cap (m : SessionManager) : Prop :=
  length (sessions m) ≤ MAX_SESSIONS.

(** Two players wait in the first session. *)
Definition pair_trace : list Event :=
  [Find "a" (JsString "A") 0; Find "b" (JsString "B") 0].

(** What one handler run can do to a session object that stays in the
    store. *)
Inductive evolves (s : GameSession) : GameSession → Prop :=
  | evolves_same : evolves s s
  | evolves_joined p :
      length (players s) < PLAYERS_PER_SESSION →
      evolves s (with_players s (players s ++ [p]))
  | evolves_scored d :
      evolves s (with_playersScore s (playersScore s ++ [d]))
  | evolves_left j :
      length (players s) < PLAYERS_PER_SESSION →
      evolves s (with_players s (delete j (players s)))
  | evolves_zeroed p :
      PLAYERS_PER_SESSION ≤ length (players s) →
      p ∈ players s →
      evolves s (zeroed p s).

(** The counter of disconnects of a session in the store: below the
    capacity, covered by score entries, and zero unless the session is
    full. *)
Definition disconnects_counted (m : SessionManager) : Prop :=
  Forall (λ s, disconnectedPlayersCount s < PLAYERS_PER_SESSION ∧
               disconnectedPlayersCount s ≤ length (playersScore s) ∧
               (0 < disconnectedPlayersCount s →
                PLAYERS_PER_SESSION ≤ length (players s)))
         (sessions m).

(** The sessions are in the array in the order they were made. *)
Definition in_creation_order (m : SessionManager) : Prop :=
  StronglySorted lt (ref <$> sessions m).

(** What the earlier listing keeps of its object of sessions: a session is
    stored under its own id, the ids in use are the numbers below the
    counter, and no session has more than 4 players or as many as 4 score
    entries. *)
Record first_listing_ok (st : FirstListing.Server) : Prop := {
  fl_ids : ∀ k s, FirstListing.sessions st !! k = Some s →
           FirstListing.id s = k;
  fl_dense : ∀ k, is_Some (FirstListing.sessions st !! k) ↔
             k < FirstListing.sessionIdCounter st;
  fl_players : ∀ k s, FirstListing.sessions st !! k = Some s →
               length (FirstListing.players s) ≤ 4;
  fl_scores : ∀ k s, FirstListing.sessions st !! k = Some s →
              length (FirstListing.playersScore s) < 4
}.

(** In the earlier listing: three players wait in session 0. *)
Definition three_joins_trace : list FirstListing.Event :=
  [FirstListing.Find "a" (JsString "A"); FirstListing.Find "b" (JsString "B");
   FirstListing.Find "c" (JsString "C")].

(** The payload of a [find] as the handler gets it: none ([undefined] or
    [null]), or a value whose [name] property is read. *)
Inductive FindPayload :=
  | NoPayload
  | FindData (data_name : JsValue).

(** The [find] handler on any payload.  Reading [data.name] of no payload
    throws a [TypeError] before anything else is done; the [catch] sends its
    message, [type_error], which the engine chooses, like any other. *)
Definition onFindPayload (type_error : string) (sock : string)
    (payload : FindPayload) (now : Z) (m : SessionManager)
  : SessionManager * list Output :=
  match payload with
  | NoPayload => (m, [SocketEmitError sock type_error])
  | FindData data_name => onFind sock data_name now m
  end.

(** ** Facts about the array primitives *)

Section array_facts.
Context {A : Type}.
Implicit Types (p : A → bool) (arr : list A).

Lemma findIndex_ge p arr : (-1 ≤ findIndex p arr)%Z.
Proof.
  induction arr as [|x rest IH]; simpl; [lia|].
  destruct (p x); [lia|]. case_match; lia.
Qed.

Lemma findIndex_none p arr :
  findIndex p arr = (-1)%Z ↔ Forall (λ x, p x = false) arr.
Proof.
  induction arr as [|x rest IH]; simpl.
  - split; [constructor | done].
  - pose proof (findIndex_ge p rest) as Hge.
    destruct (p x) eqn:Hx.
    + split; [lia | by inversion 1; congruence].
    + rewrite Forall_cons. destruct (Z.ltb_spec (findIndex p rest) 0).
      * split; [intros _; split; [done | apply IH; lia] | done].
      * split; [lia | intros [_ ?%IH]; lia].
Qed.

Lemma findIndex_some p arr i :
  findIndex p arr = Z.of_nat i →
  ∃ x, arr !! i = Some x ∧ p x = true ∧
       ∀ j y, j < i → arr !! j = Some y → p y = false.
Proof.
  revert i. induction arr as [|x rest IH]; intros i; simpl; [lia|].
  destruct (p x) eqn:Hx.
  - intros Hi. assert (i = 0) as -> by lia.
    exists x. split_and!; [done..|]. intros; lia.
  - destruct (Z.ltb_spec (findIndex p rest) 0); [lia|]. intros Hi.
    destruct i as [|i]; [lia|].
    destruct (IH i) as (y & Hy & Hpy & Hbefore); [lia|].
    exists y. split_and!; [done..|].
    intros [|j] z Hj Hz; simplify_eq/=; [done|].
    eapply Hbefore; [|done]. lia.
Qed.

Lemma findIndex_first p arr i x :
  arr !! i = Some x → p x = true →
  (∀ j y, j < i → arr !! j = Some y → p y = false) →
  findIndex p arr = Z.of_nat i.
Proof.
  revert i. induction arr as [|z rest IH]; intros i Hi Hx Hbefore; [done|].
  simpl. destruct i as [|i]; simplify_eq/=.
  - by rewrite Hx.
  - rewrite (Hbefore 0 z); [|lia|done].
    rewrite (IH i); [|done..|].
    + destruct (Z.ltb_spec (Z.of_nat i) 0); lia.
    + intros j y Hj Hy. apply (Hbefore (S j) y); [lia|done].
Qed.

Lemma at_index_nat arr i : at_index arr (Z.of_nat i) = arr !! i.
Proof.
  unfold at_index. destruct (Z.ltb_spec (Z.of_nat i) 0); [lia|].
  by rewrite Nat2Z.id.
Qed.

Lemma at_index_Some arr z x :
  at_index arr z = Some x → ∃ i, z = Z.of_nat i ∧ arr !! i = Some x.
Proof.
  unfold at_index. destruct (Z.ltb_spec z 0); [done|]. intros Hx.
  exists (Z.to_nat z). split; [lia|done].
Qed.

Lemma splice1_nat arr i : splice1 (Z.of_nat i) arr = delete i arr.
Proof.
  unfold splice1. destruct (Z.ltb_spec (Z.of_nat i) 0); [lia|].
  destruct (decide (i < length arr)).
  - by rewrite Z.min_l, Nat2Z.id by lia.
  - rewrite Z.min_r, Nat2Z.id by lia.
    rewrite !delete_take_drop, !take_ge, !drop_ge by lia. done.
Qed.

Lemma find_lookup p arr x :
  List.find p arr = Some x →
  ∃ i, arr !! i = Some x ∧ p x = true ∧
       ∀ j y, j < i → arr !! j = Some y → p y = false.
Proof.
  induction arr as [|z rest IH]; simpl; [done|].
  destruct (p z) eqn:Hz.
  - intros [= ->]. exists 0. split_and!; [done..|]. intros; lia.
  - intros (i & Hi & Hx & Hbefore)%IH. exists (S i). split_and!; [done..|].
    intros [|j] y Hj Hy; simplify_eq/=; [done|].
    eapply Hbefore; [|done]. lia.
Qed.

Lemma find_None_Forall p arr :
  List.find p arr = None ↔ Forall (λ x, p x = false) arr.
Proof.
  induction arr as [|z rest IH]; simpl; [split; [constructor | done]|].
  rewrite Forall_cons. destruct (p z) eqn:Hz.
  - split; [done | intros [? _]; done].
  - rewrite IH. split; [intros ?; split; done | intros [_ ?]; done].
Qed.

Lemma find_first p arr i x :
  arr !! i = Some x → p x = true →
  (∀ j y, j < i → arr !! j = Some y → p y = false) →
  List.find p arr = Some x.
Proof.
  revert i. induction arr as [|z rest IH]; intros i Hi Hx Hbefore; [done|].
  simpl. destruct i as [|i]; simplify_eq/=.
  - by rewrite Hx.
  - rewrite (Hbefore 0 z); [|lia|done].
    apply (IH i); [done..|].
    intros j y Hj Hy. apply (Hbefore (S j) y); [lia|done].
Qed.
End array_facts.

(** ** Session objects in the array *)

Lemma mutate_refs session arr : ref <$> mutate session arr = ref <$> arr.
Proof.
  unfold mutate. rewrite <-list_fmap_compose. apply list_fmap_ext.
  intros _ x _. simpl. unfold same_object.
  destruct (Nat.eqb_spec (ref session) (ref x)); done.
Qed.

Lemma mutate_length session arr : length (mutate session arr) = length arr.
Proof. unfold mutate. by rewrite length_fmap. Qed.

Lemma mutate_absent session arr :
  ref session ∉ ref <$> arr → mutate session arr = arr.
Proof.
  intros Hnot. unfold mutate. rewrite <-(list_fmap_id arr) at 2.
  apply list_fmap_ext. intros i x Hx. simpl. unfold same_object.
  destruct (Nat.eqb_spec (ref session) (ref x)) as [Heq|]; [|done].
  destruct Hnot. rewrite Heq. apply list_elem_of_fmap. exists x. split; [done|].
  by eapply list_elem_of_lookup_2.
Qed.

Lemma refs_lookup_inj (arr : list GameSession) (i j : nat) s t :
  NoDup (ref <$> arr) → arr !! i = Some s → arr !! j = Some t →
  ref s = ref t → i = j.
Proof.
  intros Hnd Hi Hj Heq. eapply NoDup_lookup; [done| |].
  - rewrite list_lookup_fmap, Hi. done.
  - rewrite list_lookup_fmap, Hj. simpl. by rewrite Heq.
Qed.

Lemma mutate_insert arr i s session :
  NoDup (ref <$> arr) → arr !! i = Some s → ref session = ref s →
  mutate session arr = <[i:=session]> arr.
Proof.
  intros Hnd Hi Href. apply list_eq. intros j. unfold mutate.
  rewrite list_lookup_fmap. destruct (decide (i = j)) as [<-|Hne].
  - rewrite list_lookup_insert_eq by by eapply lookup_lt_Some.
    rewrite Hi. simpl. unfold same_object. by rewrite Href, Nat.eqb_refl.
  - rewrite list_lookup_insert_ne by done.
    destruct (arr !! j) as [t|] eqn:Hj; [|done]. simpl. unfold same_object.
    destruct (Nat.eqb_spec (ref session) (ref t)) as [Heq|]; [|done].
    destruct Hne. eapply refs_lookup_inj; [done..|congruence].
Qed.

Lemma indexOf_lookup arr i s session :
  NoDup (ref <$> arr) → arr !! i = Some s → ref session = ref s →
  indexOf session arr = Z.of_nat i.
Proof.
  intros Hnd Hi Href. unfold indexOf. eapply findIndex_first; [done| |].
  - unfold same_object. by rewrite Href, Nat.eqb_refl.
  - intros j t Hlt Hj. unfold same_object.
    destruct (Nat.eqb_spec (ref session) (ref t)) as [Heq|]; [|done].
    assert (j = i) by (eapply refs_lookup_inj; [done..|congruence]). lia.
Qed.

Lemma delete_insert_same {A} (arr : list A) i x :
  delete i (<[i:=x]> arr) = delete i arr.
Proof.
  revert i. induction arr as [|y rest IH]; intros [|i]; simpl; [done..|].
  by rewrite IH.
Qed.

Lemma refs_insert (arr : list GameSession) (i : nat) s session :
  arr !! i = Some s → ref session = ref s →
  ref <$> <[i:=session]> arr = ref <$> arr.
Proof.
  intros Hi Href. rewrite list_fmap_insert, Href.
  apply list_insert_id. by rewrite list_lookup_fmap, Hi.
Qed.

Lemma Forall_sublist_of {A} (P : A → Prop) (l k : list A) :
  Forall P l → k `sublist_of` l → Forall P k.
Proof.
  rewrite !Forall_forall. intros HP Hsub x Hx. apply HP.
  by eapply elem_of_sublist.
Qed.

Lemma well_formed_initial : well_formed initial.
Proof. split; simpl; constructor. Qed.

Lemma well_formed_sublist m arr :
  well_formed m → arr `sublist_of` sessions m → well_formed (set_sessions m arr).
Proof.
  intros [Hnd Hal] Hsub. split; simpl.
  - eapply sublist_NoDup; [done|]. by apply fmap_sublist.
  - by eapply Forall_sublist_of.
Qed.

Lemma well_formed_insert m i s session :
  well_formed m → sessions m !! i = Some s → ref session = ref s →
  well_formed (set_sessions m (<[i:=session]> (sessions m))).
Proof.
  intros [Hnd Hal] Hi Href. split; simpl.
  - by erewrite refs_insert.
  - apply Forall_insert; [done|]. rewrite Href.
    by eapply (Forall_lookup_1 _ _ _ _ Hal).
Qed.

Lemma fresh_ref_absent m :
  well_formed m → allocated m ∉ ref <$> sessions m.
Proof.
  intros [_ Hal] (s & Hs & Hin)%list_elem_of_fmap.
  rewrite Forall_forall in Hal. apply Hal in Hin. lia.
Qed.

(** ** The handlers, case by case *)

Lemma score_projection (l : list Score) :
  (λ player, {| score_name := score_name player; score := score player |})
    <$> l = l.
Proof.
  rewrite <-(list_fmap_id l) at 2. apply list_fmap_ext.
  by intros _ [??] _.
Qed.

Lemma has_room_lt s :
  has_room s = true ↔ length (players s) < PLAYERS_PER_SESSION.
Proof. unfold has_room. apply Nat.ltb_lt. Qed.

Lemma has_room_ge s :
  has_room s = false ↔ PLAYERS_PER_SESSION ≤ length (players s).
Proof. unfold has_room. apply Nat.ltb_ge. Qed.

Lemma holds_located sock s :
  holds sock s = true →
  ∃ j p, findIndex (is_socket sock) (players s) = Z.of_nat j ∧
         players s !! j = Some p ∧ socketId p = sock ∧
         ∀ k q, k < j → players s !! k = Some q → socketId q ≠ sock.
Proof.
  unfold holds. intros Hh%negb_true_iff%Z.eqb_neq.
  pose proof (findIndex_ge (is_socket sock) (players s)) as Hge.
  destruct (findIndex_some (is_socket sock) (players s)
              (Z.to_nat (findIndex (is_socket sock) (players s))))
    as (p & Hp & Hsock & Hbefore); [lia|].
  exists (Z.to_nat (findIndex (is_socket sock) (players s))), p.
  split_and!; [lia|done|by apply String.eqb_eq|].
  intros k q Hk Hq Heq. specialize (Hbefore k q Hk Hq).
  unfold is_socket in Hbefore. apply String.eqb_neq in Hbefore. done.
Qed.

Lemma disconnect_loop_owner sock todo m :
  disconnect_loop sock todo m =
    match List.find (holds sock) todo with
    | Some session =>
        disconnect_found session
          (findIndex (is_socket sock) (players session)) m
    | None => m
    end.
Proof.
  induction todo as [|session rest IH]; simpl; [done|].
  unfold holds at 1. by destruct (negb _).
Qed.

Lemma onFind_sound m sock nm now :
  well_formed m →
  step_spec m (Find sock nm now) (onFind sock nm now m).1
    (onFind sock nm now m).2.
Proof.
  intros Hwf. unfold onFind.
  destruct (valid_name nm) eqn:Hvalid.
  - pose proof Hvalid as Hv. unfold valid_name in Hv.
    apply andb_true_iff in Hv as [-> ->]. simpl.
    destruct (findOpenSession m) as [s|] eqn:Hopen; simpl.
    + apply find_lookup in Hopen as (i & Hi & Hroom & Hfirst).
      apply has_room_lt in Hroom as Hlt.
      unfold addPlayer.
      destruct (Nat.leb_spec PLAYERS_PER_SESSION (length (players s)));
        [lia|].
      simpl. rewrite length_app, Nat.add_1_r. simpl.
      set (s' := with_players s _).
      rewrite !(mutate_insert (sessions m) i s s') by (done || apply Hwf).
      rewrite (indexOf_lookup _ i s' s'); [| |by apply list_lookup_insert_eq;
        eapply lookup_lt_Some|done].
      * by eapply (find_joined m sock nm now i s).
      * rewrite (refs_insert _ i s s'); [apply Hwf|done..].
    + unfold createSession.
      destruct (Nat.leb_spec MAX_SESSIONS (length (sessions m))); simpl.
      * by apply find_capped.
      * unfold mutate. rewrite fmap_app. simpl.
        unfold same_object at 2. simpl. rewrite Nat.eqb_refl.
        pose proof (mutate_absent
          (with_players (new_GameSession now m) [mkPlayer nm sock])
          (sessions m) (fresh_ref_absent m Hwf)) as Habs.
        unfold mutate in Habs. rewrite Habs.
        by apply find_created.
  - assert (negb (truthy nm) || negb (typeof_string nm) = true) as ->.
    { unfold valid_name in Hvalid.
      destruct (truthy nm), (typeof_string nm); done. }
    simpl. by apply find_invalid.
Qed.

Lemma set_sessions_twice m a b :
  set_sessions (set_sessions m a) b = set_sessions m b.
Proof. done. Qed.

Lemma onGetScore_sound m sock sessionId d cb :
  well_formed m →
  step_spec m (GetScore sock sessionId d cb)
    (onGetScore sock sessionId d cb m).1 (onGetScore sock sessionId d cb m).2.
Proof.
  intros Hwf. unfold onGetScore, getScore_body.
  destruct (at_index (sessions m) sessionId) as [s|] eqn:Hat; simpl.
  - apply at_index_Some in Hat as (i & -> & Hi).
    set (s' := with_playersScore s _).
    rewrite !(mutate_insert (sessions m) i s s') by (done || apply Hwf).
    rewrite length_app, Nat.add_1_r.
    destruct (Nat.eqb_spec (S (length (playersScore s))) PLAYERS_PER_SESSION)
      as [Hfull|Hmore]; simpl.
    + rewrite (indexOf_lookup _ i s' s'); [| |by apply list_lookup_insert_eq;
        eapply lookup_lt_Some|done].
      * destruct (Z.eqb_spec (Z.of_nat i) (-1)); [lia|].
        rewrite splice1_nat, delete_insert_same, score_projection. simpl.
        rewrite set_sessions_twice. by apply score_completed.
      * rewrite (refs_insert _ i s s'); [apply Hwf|done..].
    + by apply score_pushed.
  - by apply score_unknown.
Qed.

Lemma owner_located m sock s :
  owner sock m = Some s → ∃ i j p, located m sock i s j p.
Proof.
  intros (i & Hi & Hholds & Hfirst)%find_lookup.
  apply holds_located in Hholds as (j & p & _ & Hp & Hsock & Hbefore).
  exists i, j, p. by split_and!.
Qed.

Lemma located_owner m sock i s j p :
  located m sock i s j p →
  owner sock m = Some s ∧
  findIndex (is_socket sock) (players s) = Z.of_nat j.
Proof.
  intros (Hi & Hfirst & Hp & Hsock & Hbefore).
  assert (findIndex (is_socket sock) (players s) = Z.of_nat j) as Hj.
  { eapply findIndex_first; [done|by apply String.eqb_eq|].
    intros k q Hk Hq. apply String.eqb_neq. by eapply Hbefore. }
  split; [|done]. eapply find_first; [done| |done].
  unfold holds. rewrite Hj. apply negb_true_iff, Z.eqb_neq. lia.
Qed.

Lemma onDisconnect_sound m sock :
  well_formed m →
  step_spec m (Disconnect sock) (onDisconnect sock m).1 (onDisconnect sock m).2.
Proof.
  intros Hwf. unfold onDisconnect. simpl. rewrite disconnect_loop_owner.
  fold (owner sock m). destruct (owner sock m) as [s|] eqn:Hown.
  - destruct (owner_located _ _ _ Hown) as (i & j & p & Hloc).
    destruct (located_owner _ _ _ _ _ _ Hloc) as [_ ->].
    pose proof Hloc as (Hi & _ & Hp & _ & _).
    unfold disconnect_found.
    destruct (Nat.ltb_spec (length (players s)) PLAYERS_PER_SESSION).
    + rewrite splice1_nat.
      rewrite (mutate_insert (sessions m) i s) by (done || apply Hwf).
      by eapply disconnect_filling.
    + rewrite at_index_nat, Hp. fold (zero_score p). fold (zeroed p s).
      rewrite !(mutate_insert (sessions m) i s (zeroed p s))
        by (done || apply Hwf).
      simpl.
      destruct (Nat.eqb_spec (disconnectedPlayersCount s) 3) as [Hlast|Hmore].
      * rewrite (indexOf_lookup _ i (zeroed p s) (zeroed p s));
          [| |by apply list_lookup_insert_eq; eapply lookup_lt_Some|done].
        -- rewrite splice1_nat, delete_insert_same, set_sessions_twice.
           eapply disconnect_last; [done..|]. by rewrite Hlast.
        -- rewrite (refs_insert _ i s); [apply Hwf|done..].
      * eapply disconnect_zeroed; [done..|]. unfold PLAYERS_PER_SESSION. lia.
  - apply disconnect_absent. by apply find_None_Forall.
Qed.

(** Every handler, run on a well-formed manager, falls in one of the cases
    of [step_spec]. *)
Lemma step_sound m ev m' out :
  well_formed m → step m ev = (m', out) → step_spec m ev m' out.
Proof.
  intros Hwf Hstep.
  assert (m' = (step m ev).1 ∧ out = (step m ev).2) as [-> ->]
    by by rewrite Hstep.
  destruct ev; simpl.
  - by apply onFind_sound.
  - by apply onGetScore_sound.
  - by apply onDisconnect_sound.
  - apply tick.
Qed.

Lemma step_spec_well_formed m ev m' out :
  well_formed m → step_spec m ev m' out → well_formed m'.
Proof.
  intros Hwf Hspec.
  destruct Hspec as [| | |??? i s| |? i s|? i s| |? i s ??[]|? i s j p []|? i s| ];
    try done.
  - destruct Hwf as [Hnd Hal]. split; simpl.
    + rewrite fmap_app. simpl. apply NoDup_app. split_and!; [done| |].
      * intros r Hr ->%list_elem_of_singleton.
        by eapply (fresh_ref_absent m).
      * apply NoDup_singleton.
    + apply Forall_app. split.
      * eapply Forall_impl; [done|]. simpl. intros; lia.
      * apply Forall_singleton. simpl. lia.
  - by eapply well_formed_insert.
  - by eapply well_formed_insert.
  - apply well_formed_sublist; [done|]. apply sublist_delete.
  - by eapply well_formed_insert.
  - by eapply well_formed_insert.
  - apply well_formed_sublist; [done|]. apply sublist_delete.
  - apply well_formed_sublist; [done|]. apply sublist_filter.
Qed.

Lemma step_well_formed m ev :
  well_formed m → well_formed (step m ev).1.
Proof.
  intros Hwf. destruct (step m ev) as [m' out] eqn:Hstep.
  simpl. eapply step_spec_well_formed; [exact Hwf|]. by eapply step_sound.
Qed.

Lemma run_cons m ev rest :
  run m (ev :: rest) =
    ((run (step m ev).1 rest).1, (step m ev).2 ++ (run (step m ev).1 rest).2).
Proof.
  cbn [run]. destruct (step m ev) as [m1 out1]. cbn [fst snd].
  by destruct (run m1 rest) as [m2 out2].
Qed.

Lemma run_well_formed trace m :
  well_formed m → well_formed (run m trace).1.
Proof.
  revert m. induction trace as [|ev rest IH]; intros m Hwf; [done|].
  rewrite run_cons. simpl. by apply IH, step_well_formed.
Qed.

Lemma state_after_well_formed trace : well_formed (state_after trace).
Proof. apply run_well_formed, well_formed_initial. Qed.

(** An invariant of the steps is an invariant of the runs. *)
Lemma run_invariant (P : SessionManager → Prop) trace m :
  (∀ m ev, well_formed m → P m → P (step m ev).1) →
  well_formed m → P m → P (run m trace).1.
Proof.
  intros Hstep. revert m.
  induction trace as [|ev rest IH]; intros m Hwf HP; [done|].
  rewrite run_cons. simpl. apply IH; [by apply step_well_formed|].
  by apply Hstep.
Qed.

(** ** Capacity of the players list *)

Lemma within_capacity_step m ev :
  well_formed m → within_capacity m → within_capacity (step m ev).1.
Proof.
  intros Hwf Hcap. destruct (step m ev) as [m' out] eqn:Hstep. simpl.
  apply step_sound in Hstep; [|done]. unfold within_capacity in *.
  destruct Hstep as [| | |??? i s| |? i s|? i s| |? i s j p Hloc
                    |? i s j p Hloc|? i s| ]; simpl; try done.
  - apply Forall_app. split; [done|]. apply Forall_singleton. simpl.
    unfold PLAYERS_PER_SESSION. lia.
  - apply Forall_insert; [done|]. simpl. rewrite length_app. simpl.
    unfold PLAYERS_PER_SESSION in *. lia.
  - apply Forall_insert; [done|]. simpl.
    by eapply (Forall_lookup_1 _ _ _ _ Hcap).
  - by apply Forall_delete.
  - apply Forall_insert; [done|]. simpl.
    pose proof (length_delete (players s) j) as Hlen.
    destruct Hloc as (_ & _ & Hp & _). specialize (Hlen (mk_is_Some _ _ Hp)).
    unfold PLAYERS_PER_SESSION in *. lia.
  - apply Forall_insert; [done|]. simpl. destruct Hloc as [Hi _].
    by eapply (Forall_lookup_1 _ _ _ _ Hcap).
  - by apply Forall_delete.
  - eapply Forall_sublist_of; [done|]. apply sublist_filter.
Qed.

(** C9.  Whatever events the server has handled since it started (in
    particular any sequence of joins with valid, non-empty string names), no
    session in the store has more than [PLAYERS_PER_SESSION] = 4 players. *)
Theorem players_never_exceed_capacity (trace : list Event) (s : GameSession) :
  s ∈ sessions (state_after trace) →
  length (players s) ≤ PLAYERS_PER_SESSION ∧ PLAYERS_PER_SESSION = 4.
Proof.
  intros Hin. split; [|done].
  assert (within_capacity (state_after trace)) as Hcap.
  { apply (run_invariant within_capacity).
    - apply within_capacity_step.
    - apply well_formed_initial.
    - constructor. }
  unfold within_capacity in Hcap. rewrite Forall_forall in Hcap. by apply Hcap.
Qed.

(** C9 on the run of four joins: the session they fill has four players. *)
Lemma players_never_exceed_capacity_witness :
  length (players
            {| ref := 0;
               players := [mkPlayer (JsString "A") "a";
                           mkPlayer (JsString "B") "b";
                           mkPlayer (JsString "C") "c";
                           mkPlayer (JsString "D") "d"];
               playersScore := [];
               disconnectedPlayersCount := 0;
               createdAt := 0 |}) ≤ PLAYERS_PER_SESSION ∧
  PLAYERS_PER_SESSION = 4.
Proof.
  apply (players_never_exceed_capacity full_trace).
  vm_compute. apply list_elem_of_here.
Defined.

(** ** Score submission *)

Lemma onGetScore_live m sock i s data cb :
  well_formed m →
  sessions m !! i = Some s →
  onGetScore sock (Z.of_nat i) data cb m =
    if S (length (playersScore s)) =? PLAYERS_PER_SESSION
    then (set_sessions m (delete i (sessions m)),
          IoEmitGetScore (Z.of_nat i) (playersScore s ++ [data])
            :: ack_success cb sock)
    else (set_sessions m
            (<[i := with_playersScore s (playersScore s ++ [data])]>
               (sessions m)),
          ack_success cb sock).
Proof.
  intros Hwf Hi. unfold onGetScore, getScore_body.
  rewrite at_index_nat, Hi.
  set (s' := with_playersScore s _).
  rewrite !(mutate_insert (sessions m) i s s') by (done || apply Hwf).
  cbn [playersScore with_playersScore s'].
  rewrite length_app, Nat.add_1_r.
  destruct (S (length (playersScore s)) =? PLAYERS_PER_SESSION); [|done].
  rewrite (indexOf_lookup _ i s' s'); [| |by apply list_lookup_insert_eq;
    eapply lookup_lt_Some|done].
  - destruct (Z.eqb_spec (Z.of_nat i) (-1)); [lia|].
    cbn [sessions set_sessions].
    by rewrite splice1_nat, delete_insert_same, score_projection.
  - cbn [sessions set_sessions].
    rewrite (refs_insert _ i s s'); [apply Hwf|done..].
Qed.

(** C10.  In any state the server can reach, a [getScore] naming a live
    session is accepted whoever sends it and whatever name and score it
    carries: the entry is appended to the session's scores, and it counts
    toward the quorum, the append that brings the scores to
    [PLAYERS_PER_SESSION] entries broadcasting them and removing the
    session. *)
Theorem submitScore_accepts_any_entry (trace : list Event) (sock : string)
    (sessionId : Z) (data : Score) (cb : bool) (s : GameSession) :
  at_index (sessions (state_after trace)) sessionId = Some s →
  onGetScore sock sessionId data cb (state_after trace) =
    if S (length (playersScore s)) =? PLAYERS_PER_SESSION
    then (set_sessions (state_after trace)
            (delete (Z.to_nat sessionId) (sessions (state_after trace))),
          IoEmitGetScore sessionId (playersScore s ++ [data])
            :: ack_success cb sock)
    else (set_sessions (state_after trace)
            (<[Z.to_nat sessionId :=
                 with_playersScore s (playersScore s ++ [data])]>
               (sessions (state_after trace))),
          ack_success cb sock).
Proof.
  intros (i & -> & Hi)%at_index_Some. rewrite Nat2Z.id.
  apply onGetScore_live; [|done]. apply state_after_well_formed.
Qed.

(** C10 on a session of two players: a connection that never joined
    submits under a name no player has, and the entry is appended. *)
Lemma submitScore_accepts_any_entry_witness :
  onGetScore "z" 0 {| score_name := JsString "Nobody"; score := JsNumber 7 |}
    true (state_after stranger_trace) =
  ({| sessions :=
        [{| ref := 0;
            players := [mkPlayer (JsString "A") "a"; mkPlayer (JsString "B") "b"];
            playersScore :=
              [{| score_name := JsString "Nobody"; score := JsNumber 7 |}];
            disconnectedPlayersCount := 0;
            createdAt := 0 |}];
      allocated := 1 |},
   [CallbackSuccess "z"]).
Proof.
  rewrite (submitScore_accepts_any_entry stranger_trace "z" 0 _ true
             {| ref := 0;
                players := [mkPlayer (JsString "A") "a";
                            mkPlayer (JsString "B") "b"];
                playersScore := [];
                disconnectedPlayersCount := 0;
                createdAt := 0 |}).
  - vm_compute. reflexivity.
  - vm_compute. reflexivity.
Defined.

(** ** The expiry sweep *)

Lemma isExpired_age now s :
  isExpired now s = true ↔ (SESSION_TIMEOUT < now - createdAt s)%Z.
Proof. unfold isExpired. apply Z.ltb_lt. Qed.

(** C4 (as the code has it).  A run of the sweep keeps, in their order,
    exactly the sessions whose age [now - createdAt] does not exceed
    [SESSION_TIMEOUT] and removes exactly the others; the number of players
    plays no part, so a full session past the timeout is removed as well. *)
Theorem cleanup_removes_by_age_only (now : Z) (m : SessionManager) :
  sessions (cleanup now m) `sublist_of` sessions m ∧
  (∀ s, s ∈ sessions (cleanup now m) ↔
        s ∈ sessions m ∧ (now - createdAt s ≤ SESSION_TIMEOUT)%Z) ∧
  (∀ s, s ∈ sessions m → (SESSION_TIMEOUT < now - createdAt s)%Z →
        s ∉ sessions (cleanup now m)) ∧
  allocated (cleanup now m) = allocated m.
Proof.
  unfold cleanup. simpl. split_and!; [apply sublist_filter| | |done].
  - intros s. rewrite list_elem_of_filter.
    destruct (isExpired now s) eqn:Hexp; simpl.
    + apply isExpired_age in Hexp. split; [by intros [[] _]|]. lia.
    + assert (¬ (SESSION_TIMEOUT < now - createdAt s)%Z) as Hage.
      { intros Hlt%isExpired_age. congruence. }
      split; [intros [_ ?]; split; [done|lia] | by intros [? _]].
  - intros s _ Hage%isExpired_age. rewrite list_elem_of_filter, Hage.
    by intros [[] _].
Qed.

(** C4, the claim as stated fails: a full session created at time 0 is in
    the store, and the sweep run just after the timeout removes it. *)
Lemma cleanup_removes_full_session :
  (∃ s, sessions (state_after full_trace) = [s] ∧
        length (players s) = PLAYERS_PER_SESSION ∧
        (SESSION_TIMEOUT < 300001 - createdAt s)%Z) ∧
  sessions (cleanup 300001 (state_after full_trace)) = [].
Proof.
  split; [|vm_compute; reflexivity].
  eexists. split; [vm_compute; reflexivity|]. split; [reflexivity|].
  vm_compute. reflexivity.
Qed.

(** ** Length of the scores list *)








(** ** One place per connection *)











(** ** Leaving a session that is still filling *)

Lemma onDisconnect_filling m sock i s j p :
  well_formed m →
  located m sock i s j p →
  length (players s) < PLAYERS_PER_SESSION →
  onDisconnect sock m =
    (set_sessions m
       (<[i := with_players s (delete j (players s))]> (sessions m)), []).
Proof.
  intros Hwf Hloc Hroom. unfold onDisconnect. rewrite disconnect_loop_owner.
  destruct (located_owner _ _ _ _ _ _ Hloc) as [Hown Hj].
  unfold owner in Hown. rewrite Hown, Hj. unfold disconnect_found.
  apply Nat.ltb_lt in Hroom as ->. rewrite splice1_nat.
  destruct Hloc as [Hi _].
  by rewrite (mutate_insert (sessions m) i s) by (done || apply Hwf).
Qed.

(** C7 (as the code has it).  When the disconnect handler finds the
    connection as player [j] of session [i], that is, when session [i] is
    the first one listing the connection and [j] its first entry there, and
    that session is below capacity, the handler removes that player entry
    and nothing else, sends nothing, and leaves the session in the store,
    where it still has room: a later [findOpenSession] does return a
    session, and returns this very one unless an earlier session has
    room. *)
Theorem disconnect_before_capacity (trace : list Event) (sock : string)
    (i : nat) (s : GameSession) (j : nat) (p : Player) :
  located (state_after trace) sock i s j p →
  length (players s) < PLAYERS_PER_SESSION →
  onDisconnect sock (state_after trace) =
    (set_sessions (state_after trace)
       (<[i := with_players s (delete j (players s))]>
          (sessions (state_after trace))), []) ∧
  sessions (onDisconnect sock (state_after trace)).1 !! i =
    Some (with_players s (delete j (players s))) ∧
  has_room (with_players s (delete j (players s))) = true ∧
  is_Some (findOpenSession (onDisconnect sock (state_after trace)).1) ∧
  ((∀ k t, k < i → sessions (state_after trace) !! k = Some t →
           has_room t = false) →
   findOpenSession (onDisconnect sock (state_after trace)).1 =
     Some (with_players s (delete j (players s)))).
Proof.
  set (m := state_after trace).
  set (s' := with_players s (delete j (players s))).
  set (m' := (onDisconnect sock m).1).
  intros Hloc Hroom.
  assert (onDisconnect sock m = (set_sessions m (<[i := s']> (sessions m)), []))
    as Heq.
  { apply (onDisconnect_filling m sock i s j p); [|done..].
    apply state_after_well_formed. }
  assert (sessions m' !! i = Some s') as Hi'.
  { unfold m'. rewrite Heq. simpl. apply list_lookup_insert_eq.
    destruct Hloc as [Hi _]. by eapply lookup_lt_Some. }
  assert (has_room s' = true) as Hroom'.
  { apply has_room_lt. unfold s'. simpl.
    pose proof (length_delete (players s) j) as Hlen.
    destruct Hloc as (_ & _ & Hp & _). specialize (Hlen (mk_is_Some _ _ Hp)).
    lia. }
  split_and!; [done..| |].
  - unfold findOpenSession.
    destruct (List.find has_room (sessions m')) as [t|] eqn:Hfind; [by eexists|].
    apply find_None_Forall in Hfind.
    pose proof (Forall_lookup_1 _ _ _ _ Hfind Hi') as Hno. simpl in Hno.
    congruence.
  - intros Hfirst. unfold findOpenSession.
    apply (find_first has_room _ i); [done..|].
    intros k t Hk Ht. unfold m' in Ht. rewrite Heq in Ht. simpl in Ht.
    rewrite list_lookup_insert_ne in Ht by lia. by eapply Hfirst.
Qed.

(** C7 on the run with one join: the only player leaves, and the session
    stays, empty. *)
Lemma disconnect_before_capacity_witness :
  located (state_after lone_trace) "a" 0
    {| ref := 0; players := [mkPlayer (JsString "A") "a"];
       playersScore := []; disconnectedPlayersCount := 0; createdAt := 0 |}
    0 (mkPlayer (JsString "A") "a") ∧
  onDisconnect "a" (state_after lone_trace) =
    ({| sessions :=
          [{| ref := 0; players := []; playersScore := [];
              disconnectedPlayersCount := 0; createdAt := 0 |}];
        allocated := 1 |}, []).
Proof.
  assert (located (state_after lone_trace) "a" 0
            {| ref := 0; players := [mkPlayer (JsString "A") "a"];
               playersScore := []; disconnectedPlayersCount := 0;
               createdAt := 0 |}
            0 (mkPlayer (JsString "A") "a")) as Hloc.
  { split_and!; [vm_compute; reflexivity|intros; lia|reflexivity|reflexivity
                 |intros; lia]. }
  split; [exact Hloc|].
  destruct (disconnect_before_capacity lone_trace "a" 0 _ 0 _ Hloc)
    as [Heq _]; [vm_compute; lia|].
  rewrite Heq. vm_compute. reflexivity.
Defined.

(** C7, the claim as stated fails: after the only player of a session left
    it, the emptied session is what [findOpenSession] returns, and the next
    player to arrive is put in it.  And the session that loses the entry is
    the first one listing the connection: a connection listed in a full
    session and in a later one below capacity keeps its entry in the later
    one when it disconnects. *)
Lemma emptied_session_is_found_again :
  sessions (state_after lone_trace) =
    [{| ref := 0; players := [mkPlayer (JsString "A") "a"];
        playersScore := []; disconnectedPlayersCount := 0; createdAt := 0 |}] ∧
  findOpenSession (state_after (lone_trace ++ [Disconnect "a"])) =
    Some {| ref := 0; players := []; playersScore := [];
            disconnectedPlayersCount := 0; createdAt := 0 |} ∧
  sessions (state_after
              (lone_trace ++ [Disconnect "a"; Find "b" (JsString "B") 5])) =
    [{| ref := 0; players := [mkPlayer (JsString "B") "b"];
        playersScore := []; disconnectedPlayersCount := 0; createdAt := 0 |}] ∧
  sessions (state_after (relisted_trace ++ [Disconnect "a"])) =
    [{| ref := 0;
        players := [mkPlayer (JsString "B") "b"; mkPlayer (JsString "C") "c";
                    mkPlayer (JsString "D") "d"; mkPlayer (JsString "A") "a"];
        playersScore := [{| score_name := JsString "A"; score := JsNumber 0 |}];
        disconnectedPlayersCount := 1; createdAt := 0 |};
     {| ref := 1; players := [mkPlayer (JsString "A") "a"];
        playersScore := []; disconnectedPlayersCount := 0; createdAt := 1 |}].
Proof. split_and!; vm_compute; reflexivity. Qed.

(** ** The "session full" broadcast *)

Lemma announced_none m' out :
  Forall (λ o, is_find_broadcast o = false) out → announced m' out = [].
Proof.
  induction 1 as [|o out Ho _ IH]; [done|].
  unfold announced in *. by destruct o.
Qed.

Lemma announced_length m' out :
  length (announced m' out) = length (filter is_find_broadcast out).
Proof.
  induction out as [|o out IH]; [done|]. unfold announced in *.
  rewrite filter_cons. destruct o; simpl; try apply (f_equal S); exact IH.
Qed.

Lemma broadcasts_match_sublist m arr B :
  broadcasts_match m B → arr `sublist_of` sessions m →
  broadcasts_match (set_sessions m arr) B.
Proof.
  intros [Hnd Hden Hal Hfull] Hsub. split; simpl; [done..|].
  intros s Hs. apply Hfull. by eapply elem_of_sublist.
Qed.

Lemma broadcasts_match_insert m B B' i s s' :
  well_formed m → broadcasts_match m B →
  sessions m !! i = Some s → ref s' = ref s →
  NoDup B' → None ∉ B' →
  (∀ r, Some r ∈ B' ↔ Some r ∈ B ∨ (r = ref s ∧ B' ≠ B)) →
  (Some (ref s) ∈ B' ↔ length (players s') = PLAYERS_PER_SESSION) →
  broadcasts_match (set_sessions m (<[i:=s']> (sessions m))) B'.
Proof.
  intros Hwf [Hnd Hden Hal Hfull] Hi Href Hnd' Hden' HB' Hs'.
  split; simpl; [done..| |].
  - intros r [Hr | [-> _]]%HB'; [by apply Hal|].
    destruct Hwf as [_ Hall]. by eapply (Forall_lookup_1 _ _ _ _ Hall).
  - intros t (k & Hk)%list_elem_of_lookup_1.
    destruct (decide (k = i)) as [->|Hne].
    + rewrite list_lookup_insert_eq in Hk by by eapply lookup_lt_Some.
      simplify_eq. by rewrite Href.
    + rewrite list_lookup_insert_ne in Hk by done.
      rewrite <-(Hfull t) by by eapply list_elem_of_lookup_2.
      rewrite HB'. split; [|by left]. intros [?|[Heq _]]; [done|].
      destruct Hne. symmetry.
      eapply refs_lookup_inj; [apply Hwf|done..].
Qed.

Lemma broadcasts_match_step m ev B :
  well_formed m → broadcasts_match m B →
  broadcasts_match (step m ev).1 (B ++ announced (step m ev).1 (step m ev).2).
Proof.
  intros Hwf Hbm. destruct (step m ev) as [m' out] eqn:Hstep. simpl.
  apply step_sound in Hstep; [|done].
  pose proof Hbm as [Hnd Hden Hal Hfull].
  destruct Hstep as [| |sock nm now ?? Hroom|sock nm now i s ? Hi Hlt
                    | |? i s ? ? Hi|? i s| |? i s j p Hloc
                    |? i s j p Hloc|? i s| ];
    rewrite ?announced_none, ?app_nil_r
      by (unfold ack_success; repeat case_match; repeat constructor);
    try done.
  - split; simpl; [done..| |].
    + intros r ?%Hal. lia.
    + intros s [Hs | ->%list_elem_of_singleton]%elem_of_app; [by apply Hfull|].
      simpl. split; [intros ?%Hal; lia|done].
  - assert (Some (ref s) ∉ B) as Hnew.
    { rewrite (Hfull s) by by eapply list_elem_of_lookup_2. lia. }
    destruct (Nat.eqb_spec (S (length (players s))) PLAYERS_PER_SESSION)
      as [Hfills|Hnot].
    + unfold announced. simpl. rewrite at_index_nat.
      rewrite list_lookup_insert_eq by by eapply lookup_lt_Some. simpl.
      eapply broadcasts_match_insert; [done..| | | |].
      * apply NoDup_app. split_and!; [done| |apply NoDup_singleton].
        by intros x Hx ->%list_elem_of_singleton.
      * by intros [?|[=]%list_elem_of_singleton]%elem_of_app.
      * intros r. rewrite elem_of_app, list_elem_of_singleton.
        split; [intros [?|[= ->]]; [by left|right]|intros [? | [-> _]]; auto].
        split; [done|]. intros Heq.
        apply (f_equal length) in Heq. rewrite length_app in Heq.
        simpl in Heq. lia.
      * cbn [players with_players]. rewrite length_app, Nat.add_1_r.
        split; [done|]. intros _. apply elem_of_app. right.
        by apply list_elem_of_singleton.
    + rewrite app_nil_r.
      eapply broadcasts_match_insert; [done..| |].
      * intros r. split; [by left|intros [?|[_ Hne]]; [done|by destruct Hne]].
      * cbn [players with_players]. rewrite length_app, Nat.add_1_r.
        split; [intros ?; by destruct Hnew | intros ?; by destruct Hnot].
  - eapply broadcasts_match_insert; [done..| |].
    + intros r. split; [by left|intros [?|[_ Hne]]; [done|by destruct Hne]].
    + simpl. apply (bm_full _ _ Hbm). by eapply list_elem_of_lookup_2.
  - apply broadcasts_match_sublist; [done|]. apply sublist_delete.
  - pose proof Hloc as (Hi & _ & Hp & _).
    eapply broadcasts_match_insert; [done..| |].
    + intros r. split; [by left|intros [?|[_ Hne]]; [done|by destruct Hne]].
    + simpl. pose proof (length_delete (players s) j (mk_is_Some _ _ Hp)).
      rewrite (bm_full _ _ Hbm s) by by eapply list_elem_of_lookup_2. lia.
  - pose proof Hloc as (Hi & _).
    eapply broadcasts_match_insert; [done..| |].
    + intros r. split; [by left|intros [?|[_ Hne]]; [done|by destruct Hne]].
    + simpl. apply (bm_full _ _ Hbm). by eapply list_elem_of_lookup_2.
  - apply broadcasts_match_sublist; [done|]. apply sublist_delete.
  - apply broadcasts_match_sublist; [done|]. apply sublist_filter.
Qed.

Lemma broadcasts_match_run trace m B :
  well_formed m → broadcasts_match m B →
  broadcasts_match (run m trace).1 (B ++ full_broadcasts m trace).
Proof.
  revert m B. induction trace as [|ev rest IH]; intros m B Hwf Hbm.
  - simpl. by rewrite app_nil_r.
  - rewrite run_cons. cbn [full_broadcasts fst]. rewrite (assoc_L (++)).
    apply IH; [by apply step_well_formed|].
    by apply broadcasts_match_step.
Qed.

Lemma full_broadcasts_length trace m :
  length (full_broadcasts m trace) =
    length (filter is_find_broadcast (run m trace).2).
Proof.
  revert m. induction trace as [|ev rest IH]; intros m; [done|].
  rewrite run_cons. cbn [full_broadcasts snd].
  by rewrite filter_app, !length_app, announced_length, IH.
Qed.

Lemma no_find_broadcast out sessionId :
  Forall (λ o, is_find_broadcast o = false) out → IoEmitFind sessionId ∉ out.
Proof.
  rewrite Forall_forall. intros Hout Hin. by apply Hout in Hin.
Qed.

Lemma find_broadcast_only_at_filling_join m ev sessionId :
  well_formed m →
  IoEmitFind sessionId ∈ (step m ev).2 →
  ∃ sock nm now i s,
    ev = Find sock nm now ∧ sessionId = Z.of_nat i ∧
    sessions m !! i = Some s ∧
    S (length (players s)) = PLAYERS_PER_SESSION ∧
    sessions (step m ev).1 !! i =
      Some (with_players s (players s ++ [mkPlayer nm sock])).
Proof.
  intros Hwf. destruct (step m ev) as [m' out] eqn:Hstep. simpl.
  apply step_sound in Hstep; [|done].
  destruct Hstep as [| | |sock nm now i s ? Hi Hlt| |? ? ? ? cb|? ? ? ? cb
                    | | | | | ].
  all: try by (intros []%no_find_broadcast; unfold ack_success;
               repeat case_match; repeat constructor).
  destruct (Nat.eqb_spec (S (length (players s))) PLAYERS_PER_SESSION)
    as [Hfills|]; [|by intros ?%not_elem_of_nil].
  intros [= ->]%list_elem_of_singleton.
  exists sock, nm, now, i, s. split_and!; [done..|]. simpl.
  apply list_lookup_insert_eq. by eapply lookup_lt_Some.
Qed.

(** C8 (as the class-based listing has it).  Over any run, every [find]
    broadcast names a session object, no session is named by two of them,
    and a session in the store has been named exactly when its players list
    has [PLAYERS_PER_SESSION] entries: the broadcast is made at most once for
    a session, at the join that fills it, and not before.  The only handler
    run that makes the broadcast is a [find] that appends the fourth player
    of the session whose position it sends. *)
Theorem full_broadcast_at_most_once (trace : list Event) :
  NoDup (full_broadcasts initial trace) ∧
  (None ∉ full_broadcasts initial trace) ∧
  length (full_broadcasts initial trace) =
    length (filter is_find_broadcast (sent_during trace)) ∧
  (∀ s, s ∈ sessions (state_after trace) →
        (Some (ref s) ∈ full_broadcasts initial trace ↔
         length (players s) = PLAYERS_PER_SESSION)) ∧
  (∀ ev sessionId,
     IoEmitFind sessionId ∈ (step (state_after trace) ev).2 →
     ∃ sock nm now i s,
       ev = Find sock nm now ∧ sessionId = Z.of_nat i ∧
       sessions (state_after trace) !! i = Some s ∧
       S (length (players s)) = PLAYERS_PER_SESSION ∧
       sessions (step (state_after trace) ev).1 !! i =
         Some (with_players s (players s ++ [mkPlayer nm sock]))).
Proof.
  destruct (broadcasts_match_run trace initial []) as [Hnd Hden _ Hfull].
  - apply well_formed_initial.
  - split; simpl; [constructor|by intros ?%not_elem_of_nil
                  |by intros ? ?%not_elem_of_nil|].
    by intros ? ?%not_elem_of_nil.
  - split_and!; [done..|apply full_broadcasts_length|done|].
    intros ev sessionId. apply find_broadcast_only_at_filling_join.
    apply state_after_well_formed.
Qed.

(** C8 on the run that fills one session: that session, and no other, has
    been announced, once. *)
Lemma full_broadcast_at_most_once_witness :
  full_broadcasts initial full_trace = [Some 0] ∧
  NoDup (full_broadcasts initial full_trace).
Proof.
  split; [vm_compute; reflexivity|].
  apply (full_broadcast_at_most_once full_trace).
Defined.

(** C8, the claim as stated fails.  In the earlier listing a session is
    emptied, not removed, after its four scores: session 0 fills again and
    the broadcast with its id is made a second time, no other session having
    been created.  In the class-based listing a session that expires before
    it fills has made no such broadcast in its lifetime. *)
Lemma full_broadcast_not_exactly_once :
  ((FirstListing.run FirstListing.initial replay_trace).2 =
     [IoEmitFind 0;
      IoEmitGetScore 0
        [{| score_name := JsString "A"; score := JsNumber 1 |};
         {| score_name := JsString "B"; score := JsNumber 2 |};
         {| score_name := JsString "C"; score := JsNumber 3 |};
         {| score_name := JsString "D"; score := JsNumber 4 |}];
      IoEmitFind 0] ∧
   FirstListing.sessionIdCounter
     (FirstListing.run FirstListing.initial replay_trace).1 = 1) ∧
  (allocated (state_after expiring_trace) = 1 ∧
   sessions (state_after expiring_trace) = [] ∧
   sent_during expiring_trace = []).
Proof. split_and!; vm_compute; reflexivity. Qed.

(** ** Session ids are array positions *)

Lemma onDisconnect_full m sock i s j p :
  well_formed m →
  located m sock i s j p →
  PLAYERS_PER_SESSION ≤ length (players s) →
  onDisconnect sock m =
    (if S (disconnectedPlayersCount s) =? PLAYERS_PER_SESSION
     then set_sessions m (delete i (sessions m))
     else set_sessions m (<[i := zeroed p s]> (sessions m)), []).
Proof.
  intros Hwf Hloc Hfull. unfold onDisconnect. rewrite disconnect_loop_owner.
  destruct (located_owner _ _ _ _ _ _ Hloc) as [Hown Hj].
  unfold owner in Hown. rewrite Hown, Hj. unfold disconnect_found.
  apply Nat.ltb_ge in Hfull as ->.
  destruct Hloc as (Hi & _ & Hp & _).
  rewrite at_index_nat, Hp. fold (zero_score p). fold (zeroed p s).
  rewrite !(mutate_insert (sessions m) i s (zeroed p s)) by (done || apply Hwf).
  cbn [disconnectedPlayersCount zeroed with_disconnectedPlayersCount].
  destruct (S (disconnectedPlayersCount s) =? PLAYERS_PER_SESSION); [|done].
  cbn [sessions set_sessions].
  rewrite (indexOf_lookup _ i (zeroed p s) (zeroed p s));
    [| |by apply list_lookup_insert_eq; eapply lookup_lt_Some|done].
  - by rewrite splice1_nat, delete_insert_same.
  - rewrite (refs_insert _ i s); [apply Hwf|done..].
Qed.

(** C1, on the failing run.  Two sessions fill and are announced under the
    ids 0 and 1, which denote them at that time.  Once the first session has
    collected its four scores and is spliced out of the array, id 0 denotes
    the second session and id 1 denotes nothing. *)
Theorem issued_id_denotes_other_session :
  sent_during two_full_trace = [IoEmitFind 0; IoEmitFind 1] ∧
  ref <$> at_index (sessions (state_after two_full_trace)) 0 = Some 0 ∧
  ref <$> at_index (sessions (state_after two_full_trace)) 1 = Some 1 ∧
  ref <$> at_index
            (sessions (state_after (two_full_trace ++ first_session_scores)))
            0 = Some 1 ∧
  at_index (sessions (state_after (two_full_trace ++ first_session_scores))) 1
    = None.
Proof. split_and!; vm_compute; reflexivity. Qed.

(** C2, on the failing run.  Three players of a full session have submitted
    and the fourth closes the connection: the zero score is appended and the
    disconnect counted, the scores list has [PLAYERS_PER_SESSION] entries,
    and yet nothing is broadcast and the session stays in the store. *)
Theorem disconnect_completion_not_broadcast :
  onDisconnect "d" (state_after three_scores_trace) =
    ({| sessions :=
          [{| ref := 0;
              players := [mkPlayer (JsString "A") "a";
                          mkPlayer (JsString "B") "b";
                          mkPlayer (JsString "C") "c";
                          mkPlayer (JsString "D") "d"];
              playersScore :=
                [{| score_name := JsString "A"; score := JsNumber 10 |};
                 {| score_name := JsString "B"; score := JsNumber 20 |};
                 {| score_name := JsString "C"; score := JsNumber 30 |};
                 {| score_name := JsString "D"; score := JsNumber 0 |}];
              disconnectedPlayersCount := 1;
              createdAt := 0 |}];
        allocated := 1 |}, []) ∧
  (onGetScore "d" 0 {| score_name := JsString "D"; score := JsNumber 0 |}
     false (state_after three_scores_trace)) =
    ({| sessions := []; allocated := 1 |},
     [IoEmitGetScore 0
        [{| score_name := JsString "A"; score := JsNumber 10 |};
         {| score_name := JsString "B"; score := JsNumber 20 |};
         {| score_name := JsString "C"; score := JsNumber 30 |};
         {| score_name := JsString "D"; score := JsNumber 0 |}]]).
Proof. split; vm_compute; reflexivity. Qed.

(** C3, on the failing run.  The first of two full sessions broadcasts its
    scores and is removed; a later [getScore] under its id, 0, does not fail:
    it is acknowledged and its entry lands in the other session. *)
Theorem closed_session_id_still_resolves :
  sent_during (two_full_trace ++ first_session_scores) =
    [IoEmitFind 0; IoEmitFind 1;
     CallbackSuccess "a"; CallbackSuccess "b"; CallbackSuccess "c";
     IoEmitGetScore 0
       [{| score_name := JsString "A"; score := JsNumber 10 |};
        {| score_name := JsString "B"; score := JsNumber 20 |};
        {| score_name := JsString "C"; score := JsNumber 30 |};
        {| score_name := JsString "D"; score := JsNumber 40 |}];
     CallbackSuccess "d"] ∧
  onGetScore "a" 0 {| score_name := JsString "A"; score := JsNumber 99 |} true
    (state_after (two_full_trace ++ first_session_scores)) =
    ({| sessions :=
          [{| ref := 1;
              players := [mkPlayer (JsString "E") "e";
                          mkPlayer (JsString "F") "f";
                          mkPlayer (JsString "G") "g";
                          mkPlayer (JsString "H") "h"];
              playersScore :=
                [{| score_name := JsString "A"; score := JsNumber 99 |}];
              disconnectedPlayersCount := 0;
              createdAt := 0 |}];
        allocated := 2 |},
     [CallbackSuccess "a"]).
Proof. split; vm_compute; reflexivity. Qed.

(** ** Joining *)

Lemma valid_name_string nm :
  valid_name nm = true ↔ ∃ s, nm = JsString s ∧ s ≠ "".
Proof.
  unfold valid_name. destruct nm as [|z|s]; simpl.
  - split; [done|]. by intros (? & ? & _).
  - rewrite andb_false_r. split; [done|]. by intros (? & ? & _).
  - rewrite andb_true_r, negb_true_iff, String.eqb_neq.
    split; [by exists s|]. by intros (? & [= ->] & ?).
Qed.

Lemma onFind_outcome m sock nm now :
  (valid_name nm = false ∧
   onFind sock nm now m = (m, [SocketEmitError sock "Invalid player name"])) ∨
  (valid_name nm = true ∧ findOpenSession m = None ∧
   MAX_SESSIONS ≤ length (sessions m) ∧
   onFind sock nm now m =
     (m, [SocketEmitError sock "Maximum sessions limit reached"])) ∨
  (valid_name nm = true ∧
   (is_Some (findOpenSession m) ∨ length (sessions m) < MAX_SESSIONS) ∧
   Forall (λ o, reply_to o = None) (onFind sock nm now m).2).
Proof.
  unfold onFind. destruct (valid_name nm) eqn:Hvalid.
  - right. pose proof Hvalid as Hv. unfold valid_name in Hv.
    apply andb_true_iff in Hv as [-> ->]. simpl.
    destruct (findOpenSession m) as [s|] eqn:Hopen.
    + right. split; [done|]. split; [by left; eexists|].
      apply find_lookup in Hopen as (i & _ & Hroom%has_room_lt & _).
      unfold addPlayer.
      destruct (Nat.leb_spec PLAYERS_PER_SESSION (length (players s))); [lia|].
      simpl. case_match; repeat constructor.
    + unfold createSession.
      destruct (Nat.leb_spec MAX_SESSIONS (length (sessions m))).
      * left. by split_and!.
      * right. split; [done|]. split; [by right|]. simpl.
        repeat constructor.
  - left. split; [done|]. unfold valid_name in Hvalid.
    by destruct (truthy nm), (typeof_string nm).
Qed.

(** X1.  A [find] is refused without any change to the store, and
    answered to the caller alone, when it has no payload (the answer is then
    the message of the [TypeError]) and when the name in its payload is not
    a non-empty string (the answer is then 'Invalid player name'); a payload
    whose name is a non-empty string never gets 'Invalid player name'. *)
Theorem find_rejects_invalid_name (type_error : string) (m : SessionManager)
    (sock : string) (nm : JsValue) (now : Z) :
  onFindPayload type_error sock NoPayload now m =
    (m, [SocketEmitError sock type_error]) ∧
  (onFindPayload type_error sock (FindData nm) now m =
     (m, [SocketEmitError sock "Invalid player name"]) ↔
   (∀ s, nm = JsString s → s = "")).
Proof.
  split; [done|]. cbn [onFindPayload].
  destruct (onFind_outcome m sock nm now)
    as [[Hinv Heq]|[(Hval & _ & _ & Heq)|(Hval & _ & Hout)]].
  - split; [|done]. intros _ s ->.
    destruct (decide (s = "")) as [|Hne]; [done|].
    assert (valid_name (JsString s) = true) by (apply valid_name_string; eauto).
    congruence.
  - rewrite Heq. apply valid_name_string in Hval as (s & -> & Hne).
    split; [by intros [=]|]. intros Hs. by destruct Hne; apply Hs.
  - apply valid_name_string in Hval as (s & -> & Hne).
    split; [|intros Hs; by destruct Hne; apply Hs].
    intros Heq. rewrite Heq in Hout. simpl in Hout.
    by apply Forall_cons in Hout as [[=] _].
Qed.

(** X2.  The [find] handler never reports 'Session is full': the session it
    hands to [addPlayer] always has room, whatever the manager holds. *)
Theorem find_never_meets_full_session (m : SessionManager) (sock : string)
    (nm : JsValue) (now : Z) (to : string) :
  SocketEmitError to "Session is full" ∉ (onFind sock nm now m).2.
Proof.
  destruct (onFind_outcome m sock nm now)
    as [[_ Heq]|[(_ & _ & _ & Heq)|(_ & _ & Hout)]].
  - rewrite Heq. simpl. by intros [=]%list_elem_of_singleton.
  - rewrite Heq. simpl. by intros [=]%list_elem_of_singleton.
  - intros Hin. rewrite Forall_forall in Hout. by apply Hout in Hin.
Qed.

Lemma within_session_cap_step m ev :
  well_formed m → within_session_cap m → within_session_cap (step m ev).1.
Proof.
  intros Hwf Hcap. destruct (step m ev) as [m' out] eqn:Hstep. simpl.
  apply step_sound in Hstep; [|done]. unfold within_session_cap in *.
  destruct Hstep; simpl;
    rewrite ?length_app, ?length_insert; simpl; try lia.
  - pose proof (sublist_length _ _ (sublist_delete (sessions m) i)). lia.
  - pose proof (sublist_length _ _ (sublist_delete (sessions m) i)). lia.
  - pose proof (sublist_length _ _ (sublist_filter
      (λ session, negb (isExpired now session)) (sessions m))). lia.
Qed.

(** X3.  Whatever events the server has handled, the store holds at most
    [MAX_SESSIONS] = 100 sessions. *)
Theorem sessions_never_exceed_cap (trace : list Event) :
  length (sessions (state_after trace)) ≤ MAX_SESSIONS ∧ MAX_SESSIONS = 100.
Proof.
  split; [|done].
  apply (run_invariant within_session_cap).
  - apply within_session_cap_step.
  - apply well_formed_initial.
  - unfold within_session_cap. simpl. lia.
Qed.

(** X4.  An event adds at most one session to the store, and it adds one
    exactly when it is a [find] with a valid name that arrives while every
    session is full and the store is below [MAX_SESSIONS]. *)
Theorem session_created_only_when_all_full (trace : list Event) (ev : Event) :
  length (sessions (step (state_after trace) ev).1) ≤
    S (length (sessions (state_after trace))) ∧
  (length (sessions (step (state_after trace) ev).1) =
     S (length (sessions (state_after trace))) ↔
   ∃ sock nm now,
     ev = Find sock nm now ∧ valid_name nm = true ∧
     findOpenSession (state_after trace) = None ∧
     length (sessions (state_after trace)) < MAX_SESSIONS).
Proof.
  set (m := state_after trace).
  assert (well_formed m) as Hwf by apply state_after_well_formed.
  destruct (step m ev) as [m' out] eqn:Hstep. simpl.
  apply step_sound in Hstep; [|done].
  assert (∀ i, length (delete i (sessions m)) ≤ length (sessions m)) as Hdel.
  { intros i. apply sublist_length, sublist_delete. }
  destruct Hstep as [? ? ? Hinv|? ? ? ? ? Hcap|sock nm now|? ? ? i s ? Hi
                    | | | | | | | |now]; simpl;
    rewrite ?length_app, ?length_insert; simpl.
  - split; [lia|]. split; [lia|]. intros (? & ? & ? & [= <- <- <-] & ? & _).
    congruence.
  - split; [lia|]. split; [lia|]. intros (? & ? & ? & _ & _ & _ & ?). lia.
  - split; [lia|]. split; [|lia]. intros _. by exists sock, nm, now.
  - split; [lia|]. split; [lia|]. intros (? & ? & ? & _ & _ & Hnone & _).
    apply find_None_Forall in Hnone.
    pose proof (Forall_lookup_1 _ _ _ _ Hnone Hi) as Hfull. simpl in Hfull.
    apply has_room_ge in Hfull. lia.
  - split; [lia|]. split; [lia|]. by intros (? & ? & ? & [=] & _).
  - split; [lia|]. split; [lia|]. by intros (? & ? & ? & [=] & _).
  - split; [pose proof (Hdel i); lia|]. split; [pose proof (Hdel i); lia|].
    by intros (? & ? & ? & [=] & _).
  - split; [lia|]. split; [lia|]. by intros (? & ? & ? & [=] & _).
  - split; [lia|]. split; [lia|]. by intros (? & ? & ? & [=] & _).
  - split; [lia|]. split; [lia|]. by intros (? & ? & ? & [=] & _).
  - split; [pose proof (Hdel i); lia|]. split; [pose proof (Hdel i); lia|].
    by intros (? & ? & ? & [=] & _).
  - pose proof (sublist_length _ _ (sublist_filter
      (λ session, negb (isExpired now session)) (sessions m))).
    split; [lia|]. split; [lia|]. by intros (? & ? & ? & [=] & _).
Qed.

Lemma holds_elem sock s :
  holds sock s = true ↔ sock ∈ sockets s.
Proof.
  split.
  - intros (j & p & _ & Hp & <- & _)%holds_located.
    unfold sockets. apply list_elem_of_fmap. exists p. split; [done|].
    by eapply list_elem_of_lookup_2.
  - unfold sockets. intros (p & -> & Hin)%list_elem_of_fmap.
    destruct (holds (socketId p) s) eqn:Hh; [done|].
    unfold holds in Hh. apply negb_false_iff, Z.eqb_eq, findIndex_none in Hh.
    rewrite Forall_forall in Hh. apply Hh in Hin.
    unfold is_socket in Hin. by rewrite String.eqb_refl in Hin.
Qed.

Lemma owner_is_Some sock m :
  is_Some (owner sock m) ↔ sock ∈ connections m.
Proof.
  unfold connections. rewrite list_elem_of_bind. split.
  - intros [s (i & Hi & Hh%holds_elem & _)%find_lookup].
    exists s. split; [done|]. by eapply list_elem_of_lookup_2.
  - intros (s & Hin%holds_elem & Hs). unfold owner.
    destruct (List.find (holds sock) (sessions m)) eqn:Hfind; [by eexists|].
    apply find_None_Forall in Hfind. rewrite Forall_forall in Hfind.
    apply Hfind in Hs. congruence.
Qed.

(** X5.  A [find] with a valid name that finds a session with room, or
    room for a new session, is not answered with an error and makes the
    caller the last player of a session in the store, under that name; a
    later disconnect of the caller finds it. *)
Theorem join_registers_player (trace : list Event) (sock : string)
    (nm : JsValue) (now : Z) :
  valid_name nm = true →
  is_Some (findOpenSession (state_after trace)) ∨
    length (sessions (state_after trace)) < MAX_SESSIONS →
  Forall (λ o, reply_to o = None) (onFind sock nm now (state_after trace)).2 ∧
  (∃ s', s' ∈ sessions (onFind sock nm now (state_after trace)).1 ∧
         last (players s') = Some {| name := nm; socketId := sock |}) ∧
  is_Some (owner sock (onFind sock nm now (state_after trace)).1).
Proof.
  set (m := state_after trace). intros Hvalid Hplace.
  assert (well_formed m) as Hwf by apply state_after_well_formed.
  assert (∃ s', s' ∈ sessions (onFind sock nm now m).1 ∧
                last (players s') = Some {| name := nm; socketId := sock |})
    as Hlast.
  { pose proof (onFind_sound m sock nm now Hwf) as Hspec.
    inversion Hspec as [? ? ? Hinv|? ? ? ? Hnone Hcap| |? ? ? i s ? Hi
                       | | | | | | | | ]; subst.
    - congruence.
    - destruct Hplace as [[? Hsome]|?]; [congruence|lia].
    - eexists. split; [apply elem_of_app; right; apply list_elem_of_here|].
      done.
    - eexists. split.
      + eapply list_elem_of_lookup_2, list_lookup_insert_eq.
        by eapply lookup_lt_Some.
      + simpl. apply last_snoc. }
  split_and!; [|done|].
  - destruct (onFind_outcome m sock nm now)
      as [[? _]|[(_ & Hnone & Hcap & _)|(_ & _ & Hout)]]; [congruence| |done].
    destruct Hplace as [[? Hsome]|?]; [congruence|lia].
  - destruct Hlast as (s' & Hin & Hl). apply owner_is_Some.
    unfold connections. apply list_elem_of_bind. exists s'. split; [|done].
    unfold sockets. apply list_elem_of_fmap.
    exists {| name := nm; socketId := sock |}. split; [done|].
    apply last_Some in Hl as [l' ->]. apply elem_of_app. right.
    apply list_elem_of_here.
Qed.

(** X5 on a store with one session with room. *)
Lemma join_registers_player_witness :
  ∃ s', s' ∈ sessions (onFind "c" (JsString "C") 7 (state_after pair_trace)).1 ∧
        last (players s') = Some {| name := JsString "C"; socketId := "c" |}.
Proof.
  apply (join_registers_player pair_trace "c" (JsString "C") 7).
  - reflexivity.
  - left. vm_compute. by eexists.
Defined.

(** X22.  A [find] with a valid name is served first come, first placed:
    the caller is appended to the first session of the array that has room,
    no other session changes, and the "session full" broadcast is made, with
    that session's position, exactly when the caller is its fourth player. *)
Theorem join_goes_to_first_open_session (trace : list Event) (sock : string)
    (nm : JsValue) (now : Z) (i : nat) (s : GameSession) :
  valid_name nm = true →
  sessions (state_after trace) !! i = Some s →
  length (players s) < PLAYERS_PER_SESSION →
  (∀ k t, k < i → sessions (state_after trace) !! k = Some t →
          PLAYERS_PER_SESSION ≤ length (players t)) →
  onFind sock nm now (state_after trace) =
    (set_sessions (state_after trace)
       (<[i := with_players s (players s ++ [{| name := nm; socketId := sock |}])]>
          (sessions (state_after trace))),
     if S (length (players s)) =? PLAYERS_PER_SESSION
     then [IoEmitFind (Z.of_nat i)] else []).
Proof.
  set (m := state_after trace). intros Hvalid Hi Hroom Hfirst.
  assert (well_formed m) as Hwf by apply state_after_well_formed.
  assert (findOpenSession m = Some s) as Hopen.
  { eapply find_first; [done|by apply has_room_lt|].
    intros k t Hk Ht. apply has_room_ge. by eapply Hfirst. }
  destruct (onFind sock nm now m) as [m' out] eqn:Hon.
  apply (step_sound m (Find sock nm now)) in Hon; [|done].
  inversion Hon as [? ? ? Hinv|? ? ? ? Hnone| |? ? ? i' t ? Hi' Hlt Hfirst'
                   | | | | | | | | ]; subst; try congruence.
  assert (t = s) as ->.
  { assert (findOpenSession m = Some t) as Ht; [|congruence].
    eapply find_first; [done|by apply has_room_lt|done]. }
  assert (i' = i) as -> by by eapply refs_lookup_inj; [apply Hwf|..].
  done.
Qed.

(** X22 on a third player joining the session of two. *)
Lemma join_goes_to_first_open_session_witness :
  onFind "c" (JsString "C") 7 (state_after pair_trace) =
    ({| sessions :=
          [{| ref := 0;
              players := [mkPlayer (JsString "A") "a";
                          mkPlayer (JsString "B") "b";
                          mkPlayer (JsString "C") "c"];
              playersScore := [];
              disconnectedPlayersCount := 0;
              createdAt := 0 |}];
        allocated := 1 |}, []).
Proof.
  rewrite (join_goes_to_first_open_session pair_trace "c" (JsString "C") 7 0
             {| ref := 0;
                players := [mkPlayer (JsString "A") "a";
                            mkPlayer (JsString "B") "b"];
                playersScore := [];
                disconnectedPlayersCount := 0;
                createdAt := 0 |}).
  - vm_compute. reflexivity.
  - reflexivity.
  - vm_compute. reflexivity.
  - vm_compute. lia.
  - intros; lia.
Defined.

(** X23.  A [find] with a valid name that arrives when every session is
    full and the store is below [MAX_SESSIONS] leaves the sessions there
    untouched and adds, at the end of the array, a session created at that
    time whose only player is the caller and which has no score entry and
    no disconnect counted; nothing is sent. *)
Theorem join_opens_new_session (trace : list Event) (sock : string)
    (nm : JsValue) (now : Z) :
  valid_name nm = true →
  (∀ t, t ∈ sessions (state_after trace) →
        PLAYERS_PER_SESSION ≤ length (players t)) →
  length (sessions (state_after trace)) < MAX_SESSIONS →
  ∃ r,
    (r ∉ ref <$> sessions (state_after trace)) ∧
    onFind sock nm now (state_after trace) =
      ({| sessions :=
            sessions (state_after trace) ++
              [{| ref := r;
                  players := [{| name := nm; socketId := sock |}];
                  playersScore := [];
                  disconnectedPlayersCount := 0;
                  createdAt := now |}];
          allocated := S r |}, []).
Proof.
  set (m := state_after trace). intros Hvalid Hfull Hcap.
  assert (well_formed m) as Hwf by apply state_after_well_formed.
  assert (findOpenSession m = None) as Hnone.
  { apply find_None_Forall, Forall_forall. intros t Ht.
    apply has_room_ge. by apply Hfull. }
  exists (allocated m). split; [by apply fresh_ref_absent|].
  destruct (onFind sock nm now m) as [m' out] eqn:Hon.
  apply (step_sound m (Find sock nm now)) in Hon; [|done].
  inversion Hon as [? ? ? Hinv|? ? ? ? ? Hmax| |? ? ? i' t ? Hi' Hlt
                   | | | | | | | | ]; subst; try congruence; try lia.
  - done.
  - apply find_None_Forall in Hnone.
    pose proof (Forall_lookup_1 _ _ _ _ Hnone Hi') as Hno. simpl in Hno.
    apply has_room_ge in Hno. lia.
Qed.

(** X23 on a fifth player arriving when the only session is full. *)
Lemma join_opens_new_session_witness :
  ∃ r,
    (r ∉ ref <$> sessions (state_after full_trace)) ∧
    onFind "e" (JsString "E") 9 (state_after full_trace) =
      ({| sessions :=
            sessions (state_after full_trace) ++
              [{| ref := r;
                  players := [{| name := JsString "E"; socketId := "e" |}];
                  playersScore := [];
                  disconnectedPlayersCount := 0;
                  createdAt := 9 |}];
          allocated := S r |}, []).
Proof.
  apply (join_opens_new_session full_trace "e" (JsString "E") 9).
  - reflexivity.
  - vm_compute. intros t ->%list_elem_of_singleton. simpl. lia.
  - vm_compute. lia.
Defined.

(** ** Leaving *)

Lemma with_players_same s : with_players s (players s) = s.
Proof. by destruct s. Qed.

Lemma set_sessions_same m : set_sessions m (sessions m) = m.
Proof. by destruct m. Qed.

Lemma not_connected_holds sock m i t :
  sock ∉ connections m → sessions m !! i = Some t → holds sock t = false.
Proof.
  intros Hnot Hi. destruct (holds sock t) eqn:Hh; [|done].
  destruct Hnot. unfold connections. apply list_elem_of_bind.
  exists t. split; [by apply holds_elem|by eapply list_elem_of_lookup_2].
Qed.

(** X6.  Joining a session that stays below capacity and leaving it again
    puts the store back as it was: when a connection that is in no session
    sends a valid [find], is placed in a session that has room for yet
    another player, and then disconnects, the manager is the one before the
    [find]. *)
Theorem join_then_leave_restores (trace : list Event) (sock : string)
    (nm : JsValue) (now : Z) (s : GameSession) :
  valid_name nm = true →
  sock ∉ connections (state_after trace) →
  findOpenSession (state_after trace) = Some s →
  S (length (players s)) < PLAYERS_PER_SESSION →
  (onDisconnect sock (onFind sock nm now (state_after trace)).1).1 =
    state_after trace.
Proof.
  set (m := state_after trace). intros Hvalid Hnew Hopen Hroom.
  assert (well_formed m) as Hwf by apply state_after_well_formed.
  pose proof Hopen as (i & Hi & _ & Hfirst)%find_lookup.
  set (p := {| name := nm; socketId := sock |}).
  set (s' := with_players s (players s ++ [p])).
  assert (onFind sock nm now m =
            (set_sessions m (<[i := s']> (sessions m)), [])) as Hjoin.
  { destruct (onFind sock nm now m) as [m' out] eqn:Hon.
    apply (step_sound m (Find sock nm now)) in Hon; [|done].
    inversion Hon as [? ? ? Hinv|? ? ? ? Hnone| |? ? ? i' t ? Hi' Hlt Hfirst'
                     | | | | | | | | ]; subst; try congruence.
    assert (t = s) as ->.
    { assert (findOpenSession m = Some t) as Ht; [|congruence].
      eapply find_first; [done|by apply has_room_lt|done]. }
    assert (i' = i) as -> by by eapply refs_lookup_inj; [apply Hwf|..].
    destruct (Nat.eqb_spec (S (length (players s))) PLAYERS_PER_SESSION);
      [lia|]. done. }
  rewrite Hjoin. cbn [fst].
  assert (located (set_sessions m (<[i := s']> (sessions m))) sock i s'
            (length (players s)) p) as Hloc.
  { split_and!; simpl.
    - apply list_lookup_insert_eq. by eapply lookup_lt_Some.
    - intros k t Hk Ht. rewrite list_lookup_insert_ne in Ht by lia.
      by eapply not_connected_holds.
    - by apply list_lookup_middle.
    - done.
    - intros k q Hk Hq Hsock. rewrite lookup_app_l in Hq by done.
      destruct Hnew. unfold connections. apply list_elem_of_bind.
      exists s. split; [|by eapply list_elem_of_lookup_2].
      unfold sockets. apply list_elem_of_fmap. exists q.
      split; [done|by eapply list_elem_of_lookup_2]. }
  rewrite (onDisconnect_filling _ sock i s' (length (players s)) p);
    [| |done|simpl; rewrite length_app; simpl; lia].
  - simpl. rewrite list_insert_insert_eq.
    assert (delete (length (players s)) (players s ++ [p]) = players s)
      as ->.
    { by rewrite (delete_middle (players s) [] p), app_nil_r. }
    change (with_players s' (players s)) with (with_players s (players s)).
    rewrite with_players_same, set_sessions_twice.
    by rewrite (list_insert_id (sessions m) i s), set_sessions_same.
  - replace (set_sessions m (<[i:=s']> (sessions m)))
      with (onFind sock nm now m).1 by by rewrite Hjoin.
    apply (step_well_formed m (Find sock nm now) Hwf).
Qed.

(** X6 on a session of two players, joined and left by a third. *)
Lemma join_then_leave_restores_witness :
  (onDisconnect "c" (onFind "c" (JsString "C") 7 (state_after pair_trace)).1).1
    = state_after pair_trace.
Proof.
  apply (join_then_leave_restores pair_trace "c" (JsString "C") 7
           {| ref := 0;
              players := [mkPlayer (JsString "A") "a";
                          mkPlayer (JsString "B") "b"];
              playersScore := [];
              disconnectedPlayersCount := 0;
              createdAt := 0 |}).
  - reflexivity.
  - apply (bool_decide_unpack _). vm_compute. exact I.
  - vm_compute. reflexivity.
  - vm_compute. lia.
Defined.

(** X7.  The disconnect of a connection that is a player of no session
    changes nothing and sends nothing. *)
Theorem disconnect_of_stranger_is_noop (m : SessionManager) (sock : string) :
  sock ∉ connections m → onDisconnect sock m = (m, []).
Proof.
  intros Hnot. unfold onDisconnect. rewrite disconnect_loop_owner.
  fold (owner sock m).
  destruct (owner sock m) as [s|] eqn:Hown; [|done].
  destruct Hnot. apply owner_is_Some. by eexists.
Qed.

(** X7 on a store of two players and a connection that never joined. *)
Lemma disconnect_of_stranger_is_noop_witness :
  onDisconnect "z" (state_after pair_trace) = (state_after pair_trace, []).
Proof.
  apply disconnect_of_stranger_is_noop.
  apply (bool_decide_unpack _). vm_compute. exact I.
Defined.

(** X8.  When the disconnect handler finds the connection as a player of a
    full session, it leaves the players list alone, appends a score of 0
    under that player's name, counts the disconnect, removes the session
    exactly when that was the fourth disconnect, and sends nothing. *)
Theorem disconnect_while_full (trace : list Event) (sock : string)
    (i : nat) (s : GameSession) (j : nat) (p : Player) :
  located (state_after trace) sock i s j p →
  PLAYERS_PER_SESSION ≤ length (players s) →
  onDisconnect sock (state_after trace) =
    (if S (disconnectedPlayersCount s) =? PLAYERS_PER_SESSION
     then set_sessions (state_after trace)
            (delete i (sessions (state_after trace)))
     else set_sessions (state_after trace)
            (<[i := {| ref := ref s;
                       players := players s;
                       playersScore :=
                         playersScore s ++
                           [{| score_name := name p; score := JsNumber 0 |}];
                       disconnectedPlayersCount :=
                         S (disconnectedPlayersCount s);
                       createdAt := createdAt s |}]>
               (sessions (state_after trace))),
     []).
Proof.
  intros Hloc Hfull.
  by rewrite (onDisconnect_full _ sock i s j p)
    by (done || apply state_after_well_formed).
Qed.

(** X8 on a full session, left by its second player. *)
Lemma disconnect_while_full_witness :
  onDisconnect "b" (state_after full_trace) =
    ({| sessions :=
          [{| ref := 0;
              players := [mkPlayer (JsString "A") "a";
                          mkPlayer (JsString "B") "b";
                          mkPlayer (JsString "C") "c";
                          mkPlayer (JsString "D") "d"];
              playersScore :=
                [{| score_name := JsString "B"; score := JsNumber 0 |}];
              disconnectedPlayersCount := 1;
              createdAt := 0 |}];
        allocated := 1 |}, []).
Proof.
  rewrite (disconnect_while_full full_trace "b" 0
             {| ref := 0;
                players := [mkPlayer (JsString "A") "a";
                            mkPlayer (JsString "B") "b";
                            mkPlayer (JsString "C") "c";
                            mkPlayer (JsString "D") "d"];
                playersScore := [];
                disconnectedPlayersCount := 0;
                createdAt := 0 |}
             1 (mkPlayer (JsString "B") "b")).
  - vm_compute. reflexivity.
  - split_and!; [vm_compute; reflexivity|intros; lia|reflexivity|reflexivity|].
    intros [|k] q Hk Hq; [|lia]. by injection Hq as <-.
  - vm_compute. lia.
Defined.

Lemma disconnects_counted_step m ev :
  well_formed m → within_capacity m →
  disconnects_counted m → disconnects_counted (step m ev).1.
Proof.
  intros Hwf Hcap Hcount. destruct (step m ev) as [m' out] eqn:Hstep. simpl.
  apply step_sound in Hstep; [|done].
  unfold disconnects_counted, within_capacity in *.
  destruct Hstep as [| | |??? i s ? Hi|
                    |? i s ?? Hi|? i s| |? i s j p [Hi _]
                    |? i s j p [Hi _]|? i s| ];
    simpl; try done.
  - apply Forall_app. split; [done|]. apply Forall_singleton. simpl.
    unfold PLAYERS_PER_SESSION. lia.
  - apply Forall_insert; [done|].
    pose proof (Forall_lookup_1 _ _ _ _ Hcount Hi) as Hs. simpl in *.
    rewrite length_app. simpl. lia.
  - apply Forall_insert; [done|].
    pose proof (Forall_lookup_1 _ _ _ _ Hcount Hi) as Hs. simpl in *.
    rewrite length_app. simpl. lia.
  - by apply Forall_delete.
  - apply Forall_insert; [done|].
    pose proof (Forall_lookup_1 _ _ _ _ Hcount Hi) as Hs. simpl in *. lia.
  - apply Forall_insert; [done|].
    pose proof (Forall_lookup_1 _ _ _ _ Hcount Hi) as Hs. simpl in *.
    rewrite length_app. simpl. unfold PLAYERS_PER_SESSION in *. lia.
  - by apply Forall_delete.
  - eapply Forall_sublist_of; [done|]. apply sublist_filter.
Qed.

Lemma disconnects_counted_run trace m :
  well_formed m → within_capacity m → disconnects_counted m →
  disconnects_counted (run m trace).1.
Proof.
  revert m. induction trace as [|ev rest IH]; intros m Hwf Hcap Hcount; [done|].
  rewrite run_cons. simpl.
  apply IH; [by apply step_well_formed|by apply within_capacity_step|].
  by apply disconnects_counted_step.
Qed.

(** X9.  In every state the server reaches, a session in the store has
    counted fewer than [PLAYERS_PER_SESSION] disconnects, has at least as
    many score entries as disconnects counted, and has counted none unless
    it has exactly [PLAYERS_PER_SESSION] players. *)
Theorem disconnect_count_bounds (trace : list Event) (s : GameSession) :
  s ∈ sessions (state_after trace) →
  disconnectedPlayersCount s < PLAYERS_PER_SESSION ∧
  disconnectedPlayersCount s ≤ length (playersScore s) ∧
  (0 < disconnectedPlayersCount s →
   length (players s) = PLAYERS_PER_SESSION).
Proof.
  intros Hin.
  assert (disconnects_counted (state_after trace)) as Hcount.
  { apply disconnects_counted_run; [apply well_formed_initial|..];
      constructor. }
  assert (within_capacity (state_after trace)) as Hcap.
  { apply (run_invariant within_capacity);
      [apply within_capacity_step|apply well_formed_initial|constructor]. }
  unfold disconnects_counted, within_capacity in *.
  rewrite Forall_forall in Hcount, Hcap.
  specialize (Hcount s Hin). specialize (Hcap s Hin). simpl in *.
  split_and!; [lia..|]. intros ?. lia.
Qed.

(** X9 on the session that four joins have filled. *)
Lemma disconnect_count_bounds_witness :
  disconnectedPlayersCount
    {| ref := 0;
       players := [mkPlayer (JsString "A") "a"; mkPlayer (JsString "B") "b";
                   mkPlayer (JsString "C") "c"; mkPlayer (JsString "D") "d"];
       playersScore := [];
       disconnectedPlayersCount := 0;
       createdAt := 0 |} < PLAYERS_PER_SESSION.
Proof.
  apply (disconnect_count_bounds full_trace).
  vm_compute. apply list_elem_of_here.
Defined.

(** ** What happens to a session while it is in the store *)

Lemma same_ref_same m s s' :
  well_formed m → s ∈ sessions m → s' ∈ sessions m → ref s' = ref s → s' = s.
Proof.
  intros Hwf (i & Hi)%list_elem_of_lookup_1 (k & Hk)%list_elem_of_lookup_1 Href.
  assert (k = i) as -> by by eapply refs_lookup_inj; [apply Hwf|..].
  congruence.
Qed.

Lemma evolves_insert m i s0 x s s' :
  well_formed m → sessions m !! i = Some s0 → ref x = ref s0 →
  evolves s0 x →
  s ∈ sessions m → s' ∈ <[i:=x]> (sessions m) → ref s' = ref s →
  evolves s s'.
Proof.
  intros Hwf Hi Hx Hev Hs (k & Hk)%list_elem_of_lookup_1 Href.
  destruct (decide (k = i)) as [->|Hne].
  - rewrite list_lookup_insert_eq in Hk by by eapply lookup_lt_Some.
    simplify_eq.
    assert (s0 = s) as ->; [|done].
    eapply same_ref_same; [done..|by eapply list_elem_of_lookup_2|congruence].
  - rewrite list_lookup_insert_ne in Hk by done.
    assert (s' = s) as ->; [|constructor].
    eapply same_ref_same; [done..|by eapply list_elem_of_lookup_2|done].
Qed.

Lemma evolves_sublist m arr s s' :
  well_formed m → arr `sublist_of` sessions m →
  s ∈ sessions m → s' ∈ arr → ref s' = ref s → evolves s s'.
Proof.
  intros Hwf Hsub Hs Hs' Href.
  assert (s' = s) as ->; [|constructor].
  eapply same_ref_same; [done..|by eapply elem_of_sublist|done].
Qed.

Local Ltac insert_case :=
  match goal with
  | Hwf : well_formed ?m, H : ?s' ∈ <[?i := ?x]> (sessions ?m),
    Hi : sessions ?m !! ?i = Some ?s0 |- evolves ?s ?s' =>
      apply (evolves_insert m i s0 x s s'); try done
  end.

Lemma session_evolves m ev s s' :
  well_formed m →
  s ∈ sessions m → s' ∈ sessions (step m ev).1 → ref s' = ref s →
  evolves s s'.
Proof.
  intros Hwf Hs. destruct (step m ev) as [m' out] eqn:Hstep. simpl.
  apply step_sound in Hstep; [|done].
  destruct Hstep as [| | |??? i s0 ? Hi|
                    |? i s0 ?? Hi|? i s0| |? i s0 j p [Hi _]
                    |? i s0 j p (Hi & _ & Hp & _)|? i s0| ];
    simpl; intros Hs' Href.
  - eapply evolves_sublist; done.
  - eapply evolves_sublist; done.
  - apply elem_of_app in Hs' as [Hs'|Hs'%list_elem_of_singleton].
    + eapply evolves_sublist; done.
    + subst s'. simpl in Href. destruct Hwf as [_ Hal].
      rewrite Forall_forall in Hal. apply Hal in Hs. lia.
  - insert_case. by constructor.
  - eapply evolves_sublist; done.
  - insert_case. by constructor.
  - eapply evolves_sublist; [done|apply sublist_delete|done..].
  - eapply evolves_sublist; done.
  - insert_case. by constructor.
  - insert_case. constructor; [done|]. by eapply list_elem_of_lookup_2.
  - eapply evolves_sublist; [done|apply sublist_delete|done..].
  - eapply evolves_sublist; [done| |done|exact Hs'|done].
    apply sublist_filter.
Qed.

(** X10.  Whatever the event, a session that stays in the store keeps its
    creation time and all its score entries, in their order, new ones being
    added at the end only; its count of disconnects does not go down; and
    its players list changes by one entry at most: it stays as it is, or
    gets one player appended, or loses one entry. *)
Theorem session_keeps_its_history (trace : list Event) (ev : Event)
    (s s' : GameSession) :
  s ∈ sessions (state_after trace) →
  s' ∈ sessions (step (state_after trace) ev).1 →
  ref s' = ref s →
  createdAt s' = createdAt s ∧
  playersScore s `prefix_of` playersScore s' ∧
  disconnectedPlayersCount s ≤ disconnectedPlayersCount s' ∧
  (players s' = players s ∨
   (∃ p, players s' = players s ++ [p]) ∨
   (∃ j p, players s !! j = Some p ∧ players s' = delete j (players s))).
Proof.
  intros Hs Hs' Href.
  destruct (session_evolves (state_after trace) ev s s') as [|p|d|j|p];
    [apply state_after_well_formed|done..| | | | |]; simpl.
  - split_and!; [done|done|lia|by left].
  - split_and!; [done|done|lia|right; left; by exists p].
  - split_and!; [done|by apply prefix_app_r|lia|by left].
  - split_and!; [done|done|lia|].
    destruct (players s !! j) as [p|] eqn:Hj.
    + right. right. by exists j, p.
    + left. apply lookup_ge_None in Hj.
      by rewrite delete_take_drop, take_ge, drop_ge, app_nil_r by lia.
  - split_and!; [done|by apply prefix_app_r|lia|by left].
Qed.

(** X10 on the step from one player to two. *)
Lemma session_keeps_its_history_witness :
  createdAt
    {| ref := 0;
       players := [mkPlayer (JsString "A") "a"; mkPlayer (JsString "B") "b"];
       playersScore := [];
       disconnectedPlayersCount := 0;
       createdAt := 0 |} =
  createdAt
    {| ref := 0;
       players := [mkPlayer (JsString "A") "a"];
       playersScore := [];
       disconnectedPlayersCount := 0;
       createdAt := 0 |}.
Proof.
  apply (session_keeps_its_history lone_trace (Find "b" (JsString "B") 9)).
  - vm_compute. apply list_elem_of_here.
  - vm_compute. apply list_elem_of_here.
  - reflexivity.
Defined.

(** X11.  A session that has [PLAYERS_PER_SESSION] players keeps exactly
    those players for as long as it is in the store: no event adds,
    removes or replaces a player of a full session. *)
Theorem full_session_players_fixed (trace : list Event) (ev : Event)
    (s s' : GameSession) :
  s ∈ sessions (state_after trace) →
  length (players s) = PLAYERS_PER_SESSION →
  s' ∈ sessions (step (state_after trace) ev).1 →
  ref s' = ref s →
  players s' = players s.
Proof.
  intros Hs Hfull Hs' Href.
  destruct (session_evolves (state_after trace) ev s s') as [|p|d|j|p];
    [apply state_after_well_formed|done..| | | | |]; simpl; try done; lia.
Qed.

(** X11 on a full session one of whose players leaves. *)
Lemma full_session_players_fixed_witness :
  players
    {| ref := 0;
       players := [mkPlayer (JsString "A") "a"; mkPlayer (JsString "B") "b";
                   mkPlayer (JsString "C") "c"; mkPlayer (JsString "D") "d"];
       playersScore := [{| score_name := JsString "B"; score := JsNumber 0 |}];
       disconnectedPlayersCount := 1;
       createdAt := 0 |} =
  [mkPlayer (JsString "A") "a"; mkPlayer (JsString "B") "b";
   mkPlayer (JsString "C") "c"; mkPlayer (JsString "D") "d"].
Proof.
  apply (full_session_players_fixed full_trace (Disconnect "b")
           {| ref := 0;
              players := [mkPlayer (JsString "A") "a";
                          mkPlayer (JsString "B") "b";
                          mkPlayer (JsString "C") "c";
                          mkPlayer (JsString "D") "d"];
              playersScore := [];
              disconnectedPlayersCount := 0;
              createdAt := 0 |}).
  - vm_compute. apply list_elem_of_here.
  - reflexivity.
  - vm_compute. apply list_elem_of_here.
  - reflexivity.
Defined.

Lemma StronglySorted_sublist_of {A} (R : relation A) (l k : list A) :
  StronglySorted R l → k `sublist_of` l → StronglySorted R k.
Proof.
  intros Hl Hsub. induction Hsub as [|x k l Hsub IH|x k l Hsub IH];
    [done| |].
  - apply StronglySorted_inv in Hl as [Hl Hx]. constructor; [by apply IH|].
    by eapply Forall_sublist_of.
  - apply StronglySorted_inv in Hl as [Hl _]. by apply IH.
Qed.

Lemma in_creation_order_step m ev :
  well_formed m → in_creation_order m → in_creation_order (step m ev).1.
Proof.
  intros Hwf Hord. destruct (step m ev) as [m' out] eqn:Hstep. simpl.
  apply step_sound in Hstep; [|done]. unfold in_creation_order in *.
  assert (∀ arr, arr `sublist_of` sessions m →
                 StronglySorted lt (ref <$> arr)) as Hsub.
  { intros arr Harr. eapply StronglySorted_sublist_of; [done|].
    by apply fmap_sublist. }
  destruct Hstep as [| | |??? i s0 ? Hi|
                    |? i s0 ?? Hi|? i s0| |? i s0 j p [Hi _]
                    |? i s0 j p [Hi _]|? i s0| ];
    unfold cleanup, set_sessions; cbn [sessions]; try done;
    try (by erewrite refs_insert);
    try (apply Hsub, sublist_delete); try (apply Hsub, sublist_filter).
  rewrite fmap_app. apply StronglySorted_app_2; [|done|repeat constructor].
  intros x y (s & -> & Hs)%list_elem_of_fmap ->%list_elem_of_singleton.
  cbn [ref new_GameSession with_players].
  destruct Hwf as [_ Hal]. rewrite Forall_forall in Hal. by apply Hal.
Qed.

(** X12.  The array of sessions is always in the order in which the
    sessions were made: a session made later never stands before one made
    earlier, so the session that [find] selects is the oldest one with
    room. *)
Theorem sessions_in_creation_order (trace : list Event) (i j : nat)
    (s t : GameSession) :
  sessions (state_after trace) !! i = Some s →
  sessions (state_after trace) !! j = Some t →
  i < j → ref s < ref t.
Proof.
  intros Hi Hj Hlt.
  assert (in_creation_order (state_after trace)) as Hord.
  { apply (run_invariant in_creation_order);
      [apply in_creation_order_step|apply well_formed_initial|constructor]. }
  unfold in_creation_order in Hord.
  rewrite <-(take_drop j (ref <$> sessions (state_after trace))) in Hord.
  eapply (StronglySorted_app_1_elem_of _ _ _ _ _ Hord).
  - apply (list_elem_of_lookup_2 _ i). rewrite lookup_take_lt by done.
    by rewrite list_lookup_fmap, Hi.
  - apply (list_elem_of_lookup_2 _ 0). rewrite lookup_drop, Nat.add_0_r.
    by rewrite list_lookup_fmap, Hj.
Qed.

(** X12 on the two sessions that eight joins have filled. *)
Lemma sessions_in_creation_order_witness : 0 < 1.
Proof.
  apply (sessions_in_creation_order two_full_trace 0 1
           {| ref := 0;
              players := [mkPlayer (JsString "A") "a";
                          mkPlayer (JsString "B") "b";
                          mkPlayer (JsString "C") "c";
                          mkPlayer (JsString "D") "d"];
              playersScore := [];
              disconnectedPlayersCount := 0;
              createdAt := 0 |}
           {| ref := 1;
              players := [mkPlayer (JsString "E") "e";
                          mkPlayer (JsString "F") "f";
                          mkPlayer (JsString "G") "g";
                          mkPlayer (JsString "H") "h"];
              playersScore := [];
              disconnectedPlayersCount := 0;
              createdAt := 0 |}).
  - vm_compute. reflexivity.
  - vm_compute. reflexivity.
  - lia.
Defined.

(** ** Sweeps, replies and broadcasts *)

(** X13.  A later sweep makes an earlier one redundant: running the sweep
    at a time [now1] and again at a time [now2] not before it leaves the
    store that the sweep at [now2] alone leaves; in particular sweeping
    twice at the same time is sweeping once. *)
Theorem cleanup_absorbs_earlier (now1 now2 : Z) (m : SessionManager) :
  (now1 ≤ now2)%Z → cleanup now2 (cleanup now1 m) = cleanup now2 m.
Proof.
  intros Hle. unfold cleanup, set_sessions. simpl. f_equal.
  induction (sessions m) as [|s arr IH]; [done|].
  rewrite !filter_cons.
  destruct (isExpired now1 s) eqn:H1, (isExpired now2 s) eqn:H2; simpl.
  - done.
  - apply isExpired_age in H1.
    assert (isExpired now2 s = true) as Hexp by (apply isExpired_age; lia).
    congruence.
  - rewrite filter_cons, H2. simpl. done.
  - rewrite filter_cons, H2. simpl. by rewrite IH.
Qed.

(** X13 on a full session and sweeps at the timeout and just after it. *)
Lemma cleanup_absorbs_earlier_witness :
  cleanup 300001 (cleanup 300000 (state_after full_trace)) =
    cleanup 300001 (state_after full_trace).
Proof. apply cleanup_absorbs_earlier. lia. Defined.

(** X14.  A [getScore] whose session id is negative or not below the
    number of sessions changes nothing; it is answered with 'Invalid
    session' through the callback, and not at all when no callback was
    passed. *)
Theorem getScore_unknown_session (m : SessionManager) (sock : string)
    (sessionId : Z) (data : Score) (cb : bool) :
  (sessionId < 0 ∨ Z.of_nat (length (sessions m)) ≤ sessionId)%Z →
  onGetScore sock sessionId data cb m =
    (m, if cb then [CallbackError sock "Invalid session"] else []).
Proof.
  intros Hout. unfold onGetScore, getScore_body.
  assert (at_index (sessions m) sessionId = None) as ->; [|done].
  unfold at_index. destruct (Z.ltb_spec sessionId 0); [done|].
  apply lookup_ge_None. lia.
Qed.

(** X14 on the id 1 when the store holds one session. *)
Lemma getScore_unknown_session_witness :
  onGetScore "a" 1 {| score_name := JsString "A"; score := JsNumber 3 |} true
    (state_after pair_trace) =
  (state_after pair_trace, [CallbackError "a" "Invalid session"]).
Proof.
  apply (getScore_unknown_session (state_after pair_trace) "a" 1 _ true).
  right. vm_compute. by intros [=].
Defined.

(** X15.  A [getScore] whose payload is an object with an integer
    [sessionId], and that passes a callback, is answered through it exactly
    once: with success when the id is the position of a session, with
    'Invalid session' otherwise; without a callback nothing is sent to the
    caller. *)
Theorem getScore_answers_once (m : SessionManager) (sock : string)
    (sessionId : Z) (data : Score) (cb : bool) :
  filter (λ o, is_Some (reply_to o)) (onGetScore sock sessionId data cb m).2 =
    if cb
    then [match at_index (sessions m) sessionId with
          | Some _ => CallbackSuccess sock
          | None => CallbackError sock "Invalid session"
          end]
    else [].
Proof.
  unfold onGetScore, getScore_body.
  destruct (at_index (sessions m) sessionId) as [s|]; simpl;
    [|by destruct cb].
  destruct (_ =? _); simpl; by destruct cb.
Qed.

Lemma sent_invariant (P : Output → Prop) trace m :
  (∀ m ev o, well_formed m → o ∈ (step m ev).2 → P o) →
  well_formed m → Forall P (run m trace).2.
Proof.
  intros Hstep. revert m.
  induction trace as [|ev rest IH]; intros m Hwf; [constructor|].
  rewrite run_cons. simpl. apply Forall_app. split.
  - apply Forall_forall. intros o Ho. by eapply Hstep.
  - by apply IH, step_well_formed.
Qed.

Lemma replies_of_step m ev o to :
  well_formed m → o ∈ (step m ev).2 → reply_to o = Some to →
  event_socket ev = Some to.
Proof.
  intros Hwf. destruct (step m ev) as [m' out] eqn:Hstep. simpl.
  apply step_sound in Hstep; [|done].
  destruct Hstep; simpl; unfold ack_success;
    repeat case_match; intros Hin Hto;
    repeat (apply elem_of_cons in Hin as [->|Hin];
            [by simplify_eq/=|]);
    by apply not_elem_of_nil in Hin.
Qed.

(** X16.  Whatever the server has handled before, the messages a handler
    sends to a single client (the [error] event and the callback answers)
    go to the connection whose event it is handling and to no other; the
    timer and the disconnects send none. *)
Theorem replies_go_to_the_caller (trace : list Event) (ev : Event)
    (o : Output) (to : string) :
  o ∈ (step (state_after trace) ev).2 →
  reply_to o = Some to →
  event_socket ev = Some to ∧
  (∀ sock, ev ≠ Disconnect sock) ∧ (∀ now, ev ≠ Tick now).
Proof.
  intros Hin Hto. split.
  - eapply replies_of_step; [apply state_after_well_formed|done..].
  - split; intros ? ->; simpl in Hin.
    + by apply not_elem_of_nil in Hin.
    + by apply not_elem_of_nil in Hin.
Qed.

(** X16 on a [find] with an empty name. *)
Lemma replies_go_to_the_caller_witness :
  event_socket (Find "z" (JsString "") 3) = Some "z".
Proof.
  apply (replies_go_to_the_caller pair_trace (Find "z" (JsString "") 3)
           (SocketEmitError "z" "Invalid player name") "z").
  - vm_compute. apply list_elem_of_here.
  - reflexivity.
Defined.

(** X17.  Over any run, every [getScore] broadcast carries exactly
    [PLAYERS_PER_SESSION] score entries. *)
Theorem scores_broadcast_is_complete (trace : list Event) (sessionId : Z)
    (scores : list Score) :
  IoEmitGetScore sessionId scores ∈ sent_during trace →
  length scores = PLAYERS_PER_SESSION.
Proof.
  intros Hin.
  assert (Forall (λ o, ∀ sessionId scores,
                    o = IoEmitGetScore sessionId scores →
                    length scores = PLAYERS_PER_SESSION)
            (sent_during trace)) as Hall.
  { apply sent_invariant; [|apply well_formed_initial].
    clear. intros m ev o Hwf.
    destruct (step m ev) as [m' out] eqn:Hstep. simpl.
    apply step_sound in Hstep; [|done].
    destruct Hstep as [| | | | | |? i s d cb Hi Hfull| | | | | ];
      simpl; unfold ack_success; repeat case_match; intros Hin;
      repeat (apply elem_of_cons in Hin as [->|Hin];
              [try by intros ? ? [=]|]);
      try by apply not_elem_of_nil in Hin.
    all: intros ? ? [= <- <-]; rewrite length_app; simpl; lia. }
  rewrite Forall_forall in Hall. by eapply Hall.
Qed.

(** X17 on the run in which four players submit their scores. *)
Lemma scores_broadcast_is_complete_witness :
  length [{| score_name := JsString "A"; score := JsNumber 10 |};
          {| score_name := JsString "B"; score := JsNumber 20 |};
          {| score_name := JsString "C"; score := JsNumber 30 |};
          {| score_name := JsString "D"; score := JsNumber 40 |}] =
    PLAYERS_PER_SESSION.
Proof.
  apply (scores_broadcast_is_complete (full_trace ++ first_session_scores) 0).
  vm_compute. do 4 apply list_elem_of_further. apply list_elem_of_here.
Defined.

(** ** The earlier listing *)

Lemma entries_elem (obj : gmap nat FirstListing.Session) k s :
  (k, s) ∈ FirstListing.entries obj ↔ obj !! k = Some s.
Proof.
  unfold FirstListing.entries. rewrite merge_sort_Permutation.
  apply elem_of_map_to_list.
Qed.

Lemma first_listing_find st k s :
  List.find (λ kv, length (FirstListing.players kv.2) <? 4)
    (FirstListing.entries (FirstListing.sessions st)) = Some (k, s) →
  FirstListing.sessions st !! k = Some s ∧
  length (FirstListing.players s) < 4.
Proof.
  intros (i & Hi & Hroom & _)%find_lookup. split.
  - apply entries_elem. by eapply list_elem_of_lookup_2.
  - by apply Nat.ltb_lt in Hroom.
Qed.

Lemma first_listing_ok_step st ev :
  first_listing_ok st → first_listing_ok (FirstListing.step st ev).1.
Proof.
  intros [Hids Hdense Hpl Hsc]. destruct ev as [sock nm|sessionId e]; simpl.
  - unfold FirstListing.onFind.
    destruct (List.find _ _) as [[key session]|] eqn:Hfind; simpl.
    + apply first_listing_find in Hfind as [Hkey Hroom].
      split; simpl.
      * intros k s [[<- <-]|[? ?]]%lookup_insert_Some; simpl; eauto.
      * intros k. rewrite lookup_insert_is_Some, <-Hdense.
        split; [intros [<-|[_ ?]]; eauto|].
        intros ?. destruct (decide (key = k)); eauto.
      * intros k s [[<- <-]|[? ?]]%lookup_insert_Some; simpl; eauto.
        rewrite length_app. simpl. lia.
      * intros k s [[<- <-]|[? ?]]%lookup_insert_Some; simpl; eauto.
    + rewrite insert_insert_eq. split; simpl.
      * intros k s [[<- <-]|[? ?]]%lookup_insert_Some; simpl; eauto.
      * intros k. rewrite lookup_insert_is_Some, Hdense.
        split; [intros [<-|[? ?]]; lia|].
        intros ?. destruct (decide (FirstListing.sessionIdCounter st = k));
          [by left|right; split; [done|lia]].
      * intros k s [[<- <-]|[? ?]]%lookup_insert_Some; simpl; eauto.
      * intros k s [[<- <-]|[? ?]]%lookup_insert_Some; simpl; eauto; lia.
  - unfold FirstListing.onGetScore, FirstListing.property.
    destruct (Z.ltb_spec sessionId 0); [by split|].
    destruct (FirstListing.sessions st !! Z.to_nat sessionId)
      as [session|] eqn:Hk; simpl; [|by split].
    rewrite length_app. simpl.
    destruct (Nat.eqb_spec (length (FirstListing.playersScore session) + 1) 4).
    + split; simpl.
      * intros k s [[<- <-]|[? ?]]%lookup_insert_Some; simpl; eauto.
      * intros k. rewrite lookup_insert_is_Some, <-Hdense.
        split; [intros [<-|[_ ?]]; eauto|].
        intros ?. destruct (decide (Z.to_nat sessionId = k)); eauto.
      * intros k s [[<- <-]|[? ?]]%lookup_insert_Some; simpl; eauto; lia.
      * intros k s [[<- <-]|[? ?]]%lookup_insert_Some; simpl; eauto; lia.
    + split; simpl.
      * intros k s [[<- <-]|[? ?]]%lookup_insert_Some; simpl; eauto.
      * intros k. rewrite lookup_insert_is_Some, <-Hdense.
        split; [intros [<-|[_ ?]]; eauto|].
        intros ?. destruct (decide (Z.to_nat sessionId = k)); eauto.
      * intros k s [[<- <-]|[? ?]]%lookup_insert_Some; simpl; eauto.
      * intros k s [[<- <-]|[? ?]]%lookup_insert_Some; simpl; eauto.
        rewrite length_app. simpl. apply Hsc in Hk. lia.
Qed.

Lemma first_listing_run_cons st ev rest :
  FirstListing.run st (ev :: rest) =
    ((FirstListing.run (FirstListing.step st ev).1 rest).1,
     (FirstListing.step st ev).2 ++
       (FirstListing.run (FirstListing.step st ev).1 rest).2).
Proof.
  cbn [FirstListing.run]. destruct (FirstListing.step st ev) as [st1 out1].
  cbn [fst snd]. by destruct (FirstListing.run st1 rest) as [st2 out2].
Qed.

Lemma first_listing_ok_run trace st :
  first_listing_ok st → first_listing_ok (FirstListing.run st trace).1.
Proof.
  revert st. induction trace as [|ev rest IH]; intros st Hok; [done|].
  rewrite first_listing_run_cons. simpl. by apply IH, first_listing_ok_step.
Qed.

Lemma first_listing_ok_initial : first_listing_ok FirstListing.initial.
Proof.
  split; simpl; try (intros k s Hk; by rewrite lookup_empty in Hk).
  intros k. rewrite lookup_empty. split; [by intros [? ?]|lia].
Qed.

(** X18.  In the earlier listing the id of a session is a key that never
    moves: after any run the sessions stored are exactly those under the
    numbers below [sessionIdCounter], each has its key as [id], and no event
    lowers the counter, so an id that denotes a session denotes one after
    every later event. *)
Theorem first_listing_ids_are_stable (trace : list FirstListing.Event)
    (ev : FirstListing.Event) :
  (∀ k, is_Some (FirstListing.sessions
                   (FirstListing.run FirstListing.initial trace).1 !! k) ↔
        k < FirstListing.sessionIdCounter
              (FirstListing.run FirstListing.initial trace).1) ∧
  (∀ k s, FirstListing.sessions
            (FirstListing.run FirstListing.initial trace).1 !! k = Some s →
          FirstListing.id s = k) ∧
  (∀ k, is_Some (FirstListing.sessions
                   (FirstListing.run FirstListing.initial trace).1 !! k) →
        is_Some (FirstListing.sessions
                   (FirstListing.step
                      (FirstListing.run FirstListing.initial trace).1 ev).1
                 !! k)).
Proof.
  set (st := (FirstListing.run FirstListing.initial trace).1).
  assert (first_listing_ok st) as Hok
    by apply first_listing_ok_run, first_listing_ok_initial.
  split_and!; [apply Hok|apply Hok|].
  intros k Hk. destruct ev as [sock nm|sessionId e]; simpl.
  - unfold FirstListing.onFind.
    destruct (List.find _ _) as [[key session]|]; simpl;
      rewrite ?insert_insert_eq, lookup_insert_is_Some;
      match goal with |- ?a = k ∨ _ => destruct (decide (a = k)) end; eauto.
  - unfold FirstListing.onGetScore, FirstListing.property.
    destruct (Z.ltb_spec sessionId 0); [done|].
    destruct (FirstListing.sessions st !! Z.to_nat sessionId); [|done].
    destruct (_ =? _); simpl; rewrite lookup_insert_is_Some;
      destruct (decide (Z.to_nat sessionId = k)); eauto.
Qed.

(** X19.  In the earlier listing, after any run, no session has more than 4
    players and every session has fewer than 4 score entries, the fourth
    entry emptying both lists. *)
Theorem first_listing_bounds (trace : list FirstListing.Event) (k : nat)
    (s : FirstListing.Session) :
  FirstListing.sessions (FirstListing.run FirstListing.initial trace).1 !! k
    = Some s →
  length (FirstListing.players s) ≤ 4 ∧
  length (FirstListing.playersScore s) < 4.
Proof.
  intros Hk.
  assert (first_listing_ok (FirstListing.run FirstListing.initial trace).1)
    as Hok by apply first_listing_ok_run, first_listing_ok_initial.
  split; [by eapply (fl_players _ Hok)|by eapply (fl_scores _ Hok)].
Qed.

(** X19 on the run in which session 0 fills, scores and fills again. *)
Lemma first_listing_bounds_witness :
  length [mkPlayer (JsString "E") "e"; mkPlayer (JsString "F") "f";
          mkPlayer (JsString "G") "g"; mkPlayer (JsString "H") "h"] ≤ 4 ∧
  length (@nil Score) < 4.
Proof.
  apply (first_listing_bounds replay_trace 0
           {| FirstListing.id := 0;
              FirstListing.players :=
                [mkPlayer (JsString "E") "e"; mkPlayer (JsString "F") "f";
                 mkPlayer (JsString "G") "g"; mkPlayer (JsString "H") "h"];
              FirstListing.playersScore := [];
              FirstListing.disconnectedPlayersCount := 0 |}).
  vm_compute. reflexivity.
Defined.

(** X20.  In the earlier listing the id that a [find] broadcast carries is
    the key under which the session just filled is stored: looked up right
    after the broadcast it gives a session with 4 players, the last of them
    the caller. *)
Theorem first_listing_broadcast_resolves (trace : list FirstListing.Event)
    (sock : string) (nm : JsValue) (sessionId : Z) :
  IoEmitFind sessionId ∈
    (FirstListing.onFind sock nm
       (FirstListing.run FirstListing.initial trace).1).2 →
  ∃ s, FirstListing.property
         (FirstListing.sessions
            (FirstListing.onFind sock nm
               (FirstListing.run FirstListing.initial trace).1).1)
         sessionId = Some s ∧
       length (FirstListing.players s) = 4 ∧
       last (FirstListing.players s) = Some {| name := nm; socketId := sock |}.
Proof.
  set (st := (FirstListing.run FirstListing.initial trace).1).
  assert (first_listing_ok st) as Hok
    by apply first_listing_ok_run, first_listing_ok_initial.
  unfold FirstListing.onFind.
  destruct (List.find _ _) as [[key session]|] eqn:Hfind; simpl.
  - apply first_listing_find in Hfind as [Hkey _].
    rewrite (fl_ids _ Hok _ _ Hkey).
    destruct (Nat.eqb_spec
                (length (FirstListing.players session ++
                           [{| name := nm; socketId := sock |}])) 4)
      as [Hfull|]; [|by intros ?%not_elem_of_nil].
    intros [= ->]%list_elem_of_singleton. eexists. split_and!.
    + unfold FirstListing.property.
      destruct (Z.ltb_spec (Z.of_nat key) 0); [lia|].
      rewrite Nat2Z.id. apply lookup_insert_eq.
    + done.
    + simpl. apply last_snoc.
  - by intros ?%not_elem_of_nil.
Qed.

(** X20 on the join of a fourth player. *)
Lemma first_listing_broadcast_resolves_witness :
  ∃ s, FirstListing.property
         (FirstListing.sessions
            (FirstListing.onFind "d" (JsString "D")
               (FirstListing.run FirstListing.initial three_joins_trace).1).1)
         0 = Some s ∧
       length (FirstListing.players s) = 4 ∧
       last (FirstListing.players s) =
         Some {| name := JsString "D"; socketId := "d" |}.
Proof.
  apply (first_listing_broadcast_resolves three_joins_trace "d" (JsString "D") 0).
  vm_compute. apply list_elem_of_here.
Defined.

(** X21.  A handler that reports an error has changed nothing: whenever the
    output of an event contains an [error] message or an error answer of
    the callback, the manager after the event is the manager before it. *)
Theorem errors_leave_store_unchanged (trace : list Event) (ev : Event)
    (to msg : string) :
  SocketEmitError to msg ∈ (step (state_after trace) ev).2 ∨
    CallbackError to msg ∈ (step (state_after trace) ev).2 →
  (step (state_after trace) ev).1 = state_after trace.
Proof.
  set (m := state_after trace).
  assert (well_formed m) as Hwf by apply state_after_well_formed.
  destruct (step m ev) as [m' out] eqn:Hstep. simpl.
  apply step_sound in Hstep; [|done].
  destruct Hstep; try done; simpl; unfold ack_success;
    repeat case_match; intros [Hin|Hin];
    repeat (apply elem_of_cons in Hin as [?|Hin]; [by simplify_eq/=|]);
    by apply not_elem_of_nil in Hin.
Qed.

(** X21 on a [getScore] for a session that does not exist. *)
Lemma errors_leave_store_unchanged_witness :
  (step (state_after pair_trace)
     (GetScore "a" 4 {| score_name := JsString "A"; score := JsNumber 1 |}
        true)).1 = state_after pair_trace.
Proof.
  apply (errors_leave_store_unchanged pair_trace _ "a" "Invalid session").
  right. vm_compute. apply list_elem_of_here.
Defined.
